(** * One Billion Row Challenge, [src/using_python.py]

    A shallow embedding of [processar_temperaturas] and [main], together with
    the parts of the Python runtime the function calls ([csv.reader], [float],
    [min], [max], [sorted], the [.1f] format, [defaultdict], [Counter]).

    - a Python [str] is the list of its Unicode code points;
    - a Python [float] is an IEEE-754 binary64 value ([spec_float] with
      [prec = 53] and [emax = 1024], all operations rounding to nearest even);
    - a Python [int] is a [Z];
    - a [dict] is the list of its items in insertion order;
    - an exception is the [Raise] case of [result];
    - the file is the list of the lines its iterator yields; what [open], the
      iterator, the closing of the file and [print] may raise on their own is
      given by a [world], for [processar_temperaturas_in]. *)

From Stdlib Require Import ZArith List Bool Lia String Ascii.
From Stdlib Require Import Sorted Permutation SpecFloat DecimalPos.
Import ListNotations.
Local Open Scope Z_scope.

(** ** Exceptions *)

Inductive exn : Type :=
| IndexError
| ValueError
| ZeroDivisionError
| OverflowError
| csv_Error.

Inductive result (A : Type) : Type :=
| Ok (a : A)
| Raise (e : exn).
Arguments Ok {A} a.
Arguments Raise {A} e.

(** ** Python [str] *)

Abbreviation char := Z (only parsing).
Abbreviation str := (list Z) (only parsing).

(** The code points of an ASCII literal. *)
Definition lit (s : string) : str :=
  map (fun a => Z.of_nat (nat_of_ascii a)) (list_ascii_of_string s).

(** [==] on [str]. *)
Fixpoint str_eqb (a b : str) : bool :=
  match a, b with
  | [], [] => true
  | x :: a', y :: b' => (x =? y) && str_eqb a' b'
  | _, _ => false
  end.

(** [<] on [str]: the first differing code point decides, a proper prefix is
    smaller.  The same function orders byte strings. *)
Fixpoint str_ltb (a b : list Z) : bool :=
  match a, b with
  | _, [] => false
  | [], _ :: _ => true
  | x :: a', y :: b' => if x =? y then str_ltb a' b' else x <? y
  end.

(** The UTF-8 encoding of one code point and of a string, as bytes. *)
Definition utf8_char (c : char) : list Z :=
  if c <? 128 then [c]
  else if c <? 2048 then [192 + c / 64; 128 + c mod 64]
  else if c <? 65536 then
    [224 + c / 4096; 128 + (c / 64) mod 64; 128 + c mod 64]
  else
    [240 + c / 262144; 128 + (c / 4096) mod 64;
     128 + (c / 64) mod 64; 128 + c mod 64].

Definition utf8 (s : str) : list Z := flat_map utf8_char s.

(** A code point of Unicode. *)
Definition code_point (c : char) : Prop := 0 <= c < 1114112.

(** ** Python [float] *)

Definition float : Type := spec_float.
Definition prec : Z := 53.
Definition emax : Z := 1024.

Definition inf : float := S754_infinity false.
Definition neg_inf : float := S754_infinity true.
Definition nan : float := S754_nan.
Definition zero : float := S754_zero false.

Definition float_add : float -> float -> float := SFadd prec emax.
Definition float_lt : float -> float -> bool := SFltb.
Definition float_le : float -> float -> bool := SFleb.
Definition float_eq : float -> float -> bool := SFeqb.

Definition is_nan (x : float) : bool :=
  match x with S754_nan => true | _ => false end.

(** The builtins [min(a, b)] and [max(a, b)]: the first argument is kept unless
    the second one is strictly smaller (larger). *)
Definition py_min (a b : float) : float := if float_lt b a then b else a.
Definition py_max (a b : float) : float := if float_lt a b then b else a.

(** [float(n)] for an [int], as true division applies it to its right operand:
    correctly rounded, [OverflowError] when the result is not finite. *)
Definition float_of_int (n : Z) : result float :=
  match binary_normalize prec emax n 0 false with
  | S754_infinity _ => Raise OverflowError
  | x => Ok x
  end.

(** [a / n] for a float [a] and an int [n]. *)
Definition float_truediv_int (a : float) (n : Z) : result float :=
  match float_of_int n with
  | Raise e => Raise e
  | Ok b =>
      match b with
      | S754_zero _ => Raise ZeroDivisionError
      | _ => Ok (SFdiv prec emax a b)
      end
  end.

(** The binary64 value nearest to [(-1)^sign * m * 10^e] (ties to even), which
    is what the runtime's [strtod] returns for a decimal literal. *)
Definition decimal_to_float (sign : bool) (m e : Z) : float :=
  if m <=? 0 then S754_zero sign
  else if 0 <=? e then binary_normalize prec emax (cond_Zopp sign (m * 10 ^ e)) 0 sign
  else
    let '(q, e2, l) := SFdiv_core_binary prec emax m 0 (10 ^ (- e)) 0 in
    binary_round_aux prec emax sign q e2 l.

(** *** [float(str)] *)

(** The two tables of the runtime's Unicode database that [float] consults for
    characters from U+007F on: whether a character is white space, and the
    value of a decimal digit ([-1] when the character is not one). *)
Class UnicodeDB : Type := {
  Py_UNICODE_ISSPACE : char -> bool;
  Py_UNICODE_TODECIMAL : char -> Z
}.

(** The ASCII classes the C code of [float] tests with. *)
Definition Py_ISSPACE (c : char) : bool :=
  (c =? 32) || ((9 <=? c) && (c <=? 13)).
Definition Py_ISDIGIT (c : char) : bool := (48 <=? c) && (c <=? 57).
Definition Py_TOLOWER (c : char) : char :=
  if (65 <=? c) && (c <=? 90) then c + 32 else c.

Section FloatFromString.
Context {db : UnicodeDB}.

(** Characters below U+007F stay, a space of the database becomes a blank and
    a decimal digit its ASCII digit; at any other character the text is cut,
    with a question mark in its place. *)
Fixpoint transform_chars (s : str) : str :=
  match s with
  | [] => []
  | ch :: r =>
      if ch <? 127 then ch :: transform_chars r
      else if Py_UNICODE_ISSPACE ch then 32 :: transform_chars r
      else
        let decimal := Py_UNICODE_TODECIMAL ch in
        if decimal <? 0 then [63] else (48 + decimal) :: transform_chars r
  end.

(** An ASCII string is returned as it is. *)
Definition _PyUnicode_TransformDecimalAndSpaceToASCII (s : str) : str :=
  if forallb (fun c => c <? 128) s then s else transform_chars s.
End FloatFromString.

(** Leading white space goes. *)
Fixpoint lstrip (s : str) : str :=
  match s with
  | c :: r => if Py_ISSPACE c then lstrip r else s
  | [] => []
  end.

(** Trailing white space goes, but never the first character. *)
Fixpoint rstrip1 (s : str) : str :=
  match s with
  | [] => []
  | c :: r =>
      match rstrip1 r with
      | [] => if Py_ISSPACE c then [] else [c]
      | r' => c :: r'
      end
  end.

Definition rstrip (s : str) : str :=
  match s with
  | [] => []
  | c :: r => c :: rstrip1 r
  end.

(** Underscores are dropped when each one stands between two digits.  (A NUL
    character ends the C string early and makes [float] fail; here it is one
    more character that no literal contains.) *)
Fixpoint drop_underscores (prev : char) (s : str) : option str :=
  match s with
  | [] => if prev =? 95 then None else Some []
  | p :: r =>
      if p =? 95 then
        if Py_ISDIGIT prev then drop_underscores p r else None
      else if (prev =? 95) && negb (Py_ISDIGIT p) then None
      else
        match drop_underscores p r with
        | Some r' => Some (p :: r')
        | None => None
        end
  end.

Definition _Py_string_to_number_with_underscores (s : str) : option str :=
  if existsb (fun c => c =? 95) s then drop_underscores 0 s else Some s.

(** The longest run of digits at the front, as digit values, and the rest. *)
Fixpoint span_digits (s : str) : list Z * str :=
  match s with
  | c :: r =>
      if Py_ISDIGIT c then
        let '(ds, rest) := span_digits r in (c - 48 :: ds, rest)
      else ([], s)
  | [] => ([], [])
  end.

Definition digits_value (ds : list Z) : Z :=
  fold_left (fun a d => 10 * a + d) ds 0.

(** An optional [-] or [+]. *)
Definition take_sign (s : str) : bool * str :=
  match s with
  | 45 :: r => (true, r)
  | 43 :: r => (false, r)
  | _ => (false, s)
  end.

(** The exponent part [e|E [sign] digits+]; without a digit nothing of it is
    consumed. *)
Definition take_exponent (s : str) : Z * str :=
  match s with
  | c :: r =>
      if (c =? 101) || (c =? 69) then
        let '(esign, r1) := take_sign r in
        match span_digits r1 with
        | ([], _) => (0, s)
        | (ds, r2) => (cond_Zopp esign (digits_value ds), r2)
        end
      else (0, s)
  | [] => (0, s)
  end.

Definition MAX_DIGITS : Z := 1000000000.

Fixpoint skip_zeros (ds : list Z) : list Z :=
  match ds with
  | 0 :: r => skip_zeros r
  | _ => ds
  end.

(** [_Py_dg_strtod]: sign, digits, optional point and digits (one digit at
    least in all), optional exponent.  [None] when nothing converts: without a
    digit, or with more than [MAX_DIGITS] digits after the leading zeros or
    after the point. *)
Definition _Py_dg_strtod (s : str) : option (float * str) :=
  let '(sign, s1) := take_sign s in
  let '(ip, s2) := span_digits s1 in
  let '(fp, s3) :=
    match s2 with
    | 46 :: r => span_digits r
    | _ => ([], s2)
    end in
  let ndigits :=
    match skip_zeros ip with
    | [] => List.length (skip_zeros fp)
    | ip' => (List.length ip' + List.length fp)%nat
    end in
  let fraclen := List.length fp in
  match ip ++ fp with
  | [] => None
  | ds =>
      if (MAX_DIGITS <? Z.of_nat ndigits) || (MAX_DIGITS <? Z.of_nat fraclen) then None
      else
        let '(e, s4) := take_exponent s3 in
        Some (decimal_to_float sign (digits_value ds) (e - Z.of_nat fraclen), s4)
  end.

(** [pat] (lower case) at the front of [s], letter case ignored. *)
Fixpoint case_insensitive_match (pat s : str) : option str :=
  match pat, s with
  | [], _ => Some s
  | p :: pat', c :: s' =>
      if Py_TOLOWER c =? p then case_insensitive_match pat' s' else None
  | _ :: _, [] => None
  end.

(** An optional sign, then [inf], [infinity] or [nan]. *)
Definition _Py_parse_inf_or_nan (s : str) : option (float * str) :=
  let '(negate, s1) := take_sign s in
  match case_insensitive_match (lit "inf") s1 with
  | Some s2 =>
      match case_insensitive_match (lit "inity") s2 with
      | Some s3 => Some (S754_infinity negate, s3)
      | None => Some (S754_infinity negate, s2)
      end
  | None =>
      match case_insensitive_match (lit "nan") s1 with
      | Some s2 => Some (nan, s2)
      | None => None
      end
  end.

(** A decimal literal or, when nothing of it converts, an infinity or a NaN. *)
Definition _PyOS_ascii_strtod (s : str) : option (float * str) :=
  match _Py_dg_strtod s with
  | Some r => Some r
  | None => _Py_parse_inf_or_nan s
  end.

(** The whole string has to convert. *)
Definition float_from_string_inner (s : str) : result float :=
  match _PyOS_ascii_strtod s with
  | Some (x, []) => Ok x
  | _ => Raise ValueError
  end.

Section FloatOfStr.
Context {db : UnicodeDB}.

(** [float(s)] for a [str]. *)
Definition float_of_str (s : str) : result float :=
  match lstrip (_PyUnicode_TransformDecimalAndSpaceToASCII s) with
  | [] => Raise ValueError
  | s1 =>
      match _Py_string_to_number_with_underscores (rstrip s1) with
      | None => Raise ValueError
      | Some s2 => float_from_string_inner s2
      end
  end.
End FloatOfStr.

(** *** The format [.1f] *)

Fixpoint uint_digits (u : Decimal.uint) : str :=
  match u with
  | Decimal.Nil => []
  | Decimal.D0 r => 48 :: uint_digits r
  | Decimal.D1 r => 49 :: uint_digits r
  | Decimal.D2 r => 50 :: uint_digits r
  | Decimal.D3 r => 51 :: uint_digits r
  | Decimal.D4 r => 52 :: uint_digits r
  | Decimal.D5 r => 53 :: uint_digits r
  | Decimal.D6 r => 54 :: uint_digits r
  | Decimal.D7 r => 55 :: uint_digits r
  | Decimal.D8 r => 56 :: uint_digits r
  | Decimal.D9 r => 57 :: uint_digits r
  end.

(** The decimal digits of a natural number, ["0"] for zero. *)
Definition decimal_digits (n : Z) : str := uint_digits (N.to_uint (Z.to_N n)).

(** [m * 2^e * 10] rounded to an integer, ties to even. *)
Definition tenths (m : positive) (e : Z) : Z :=
  if 0 <=? e then Zpos m * 10 * 2 ^ e
  else
    let d := 2 ^ (- e) in
    let q := (Zpos m * 10) / d in
    let r := (Zpos m * 10) mod d in
    match 2 * r ?= d with
    | Lt => q
    | Gt => q + 1
    | Eq => if Z.even q then q else q + 1
    end.

(** [f"{x:.1f}"]. *)
Definition format_1f (x : float) : str :=
  match x with
  | S754_nan => lit "nan"
  | S754_infinity s => if s then lit "-inf" else lit "inf"
  | S754_zero s => if s then lit "-0.0" else lit "0.0"
  | S754_finite s m e =>
      let n := tenths m e in
      (if s then [45] else []) ++ decimal_digits (n / 10) ++ [46] ++ decimal_digits (n mod 10)
  end.

(** ** [dict], [defaultdict] and [Counter] *)

Section Dict.
Context {V : Type}.

Definition dict : Type := list (str * V).

(** [d.get(k)]. *)
Fixpoint dict_get (k : str) (d : dict) : option V :=
  match d with
  | [] => None
  | (k', v) :: r => if str_eqb k k' then Some v else dict_get k r
  end.

(** [d[k] = v]: a present key keeps its place, a new one goes last. *)
Fixpoint dict_set (k : str) (v : V) (d : dict) : dict :=
  match d with
  | [] => [(k, v)]
  | (k', v') :: r =>
      if str_eqb k k' then (k', v) :: r else (k', v') :: dict_set k v r
  end.

(** [d[k]] on a [defaultdict]: a missing key is first stored with the
    default.  The value read and the dictionary after the read. *)
Definition defaultdict_getitem (default : V) (k : str) (d : dict) : V * dict :=
  match dict_get k d with
  | Some v => (v, d)
  | None => (default, dict_set k default d)
  end.

Definition keys (d : dict) : list str := map fst d.
End Dict.
Arguments dict V : clear implicits.

(** [c.update([k])] on a [Counter]. *)
Definition Counter_update (k : str) (c : dict Z) : dict Z :=
  dict_set k (match dict_get k c with Some n => n | None => 0 end + 1) c.

(** ** [csv.reader(file, delimiter=';')]

    The reader of the [excel] dialect with [;] as delimiter: the double quote
    as quote character, doubled quotes, no escape character, initial spaces
    kept, not strict.  The states and the transitions are those of the
    reader's [parse_process_char] for this dialect (the states of the escape
    character are left out: the dialect has none).  The reader is iterated
    through [tqdm], which hands the rows on as they are. *)

Inductive ParserState : Type :=
| START_RECORD
| START_FIELD
| IN_FIELD
| IN_QUOTED_FIELD
| QUOTE_IN_QUOTED_FIELD
| EAT_CRNL.

Definition ParserState_eqb (a b : ParserState) : bool :=
  match a, b with
  | START_RECORD, START_RECORD | START_FIELD, START_FIELD
  | IN_FIELD, IN_FIELD | IN_QUOTED_FIELD, IN_QUOTED_FIELD
  | QUOTE_IN_QUOTED_FIELD, QUOTE_IN_QUOTED_FIELD | EAT_CRNL, EAT_CRNL => true
  | _, _ => false
  end.

(** What the reader is fed: a character of the line, or the end of the line. *)
Inductive input : Type :=
| Ch (c : char)
| EOL.

Record ReaderObj : Type := mkReader {
  fields : list str;
  state : ParserState;
  field : str
}.

Definition delimiter : char := 59.
Definition quotechar : char := 34.

(** [csv.field_size_limit()], which the function leaves at its default. *)
Definition field_limit : Z := 131072.

Definition is_newline (c : char) : bool := (c =? 10) || (c =? 13).

Definition parse_reset : ReaderObj :=
  {| fields := []; state := START_RECORD; field := [] |}.

(** The open field is closed and joins the fields of the record. *)
Definition parse_save_field (self : ReaderObj) : ReaderObj :=
  {| fields := fields self ++ [field self]; state := state self; field := [] |}.

(** A character joins the open field, unless the field is at the limit. *)
Definition parse_add_char (self : ReaderObj) (c : char) : result ReaderObj :=
  if field_limit <=? Z.of_nat (List.length (field self)) then Raise csv_Error
  else Ok {| fields := fields self; state := state self; field := field self ++ [c] |}.

Definition set_state (s : ParserState) (self : ReaderObj) : ReaderObj :=
  {| fields := fields self; state := s; field := field self |}.

Definition map_result {A B : Type} (f : A -> B) (r : result A) : result B :=
  match r with
  | Ok a => Ok (f a)
  | Raise e => Raise e
  end.

(** The case [START_FIELD], which [START_RECORD] falls through to. *)
Definition start_field (self : ReaderObj) (c : input) : result ReaderObj :=
  match c with
  | EOL => Ok (set_state START_RECORD (parse_save_field self))
  | Ch ch =>
      if is_newline ch then Ok (set_state EAT_CRNL (parse_save_field self))
      else if ch =? quotechar then Ok (set_state IN_QUOTED_FIELD self)
      else if ch =? delimiter then Ok (parse_save_field self)
      else map_result (set_state IN_FIELD) (parse_add_char self ch)
  end.

Definition parse_process_char (self : ReaderObj) (c : input) : result ReaderObj :=
  match state self with
  | START_RECORD =>
      match c with
      | EOL => Ok self
      | Ch ch =>
          if is_newline ch then Ok (set_state EAT_CRNL self)
          else start_field (set_state START_FIELD self) c
      end
  | START_FIELD => start_field self c
  | IN_FIELD =>
      match c with
      | EOL => Ok (set_state START_RECORD (parse_save_field self))
      | Ch ch =>
          if is_newline ch then Ok (set_state EAT_CRNL (parse_save_field self))
          else if ch =? delimiter then Ok (set_state START_FIELD (parse_save_field self))
          else parse_add_char self ch
      end
  | IN_QUOTED_FIELD =>
      match c with
      | EOL => Ok self
      | Ch ch =>
          if ch =? quotechar then Ok (set_state QUOTE_IN_QUOTED_FIELD self)
          else parse_add_char self ch
      end
  | QUOTE_IN_QUOTED_FIELD =>
      match c with
      | EOL => Ok (set_state START_RECORD (parse_save_field self))
      | Ch ch =>
          if ch =? quotechar then
            map_result (set_state IN_QUOTED_FIELD) (parse_add_char self ch)
          else if ch =? delimiter then Ok (set_state START_FIELD (parse_save_field self))
          else if is_newline ch then Ok (set_state EAT_CRNL (parse_save_field self))
          else map_result (set_state IN_FIELD) (parse_add_char self ch)
      end
  | EAT_CRNL =>
      match c with
      | EOL => Ok (set_state START_RECORD self)
      | Ch ch => if is_newline ch then Ok self else Raise csv_Error
      end
  end.

(** The characters of one line. *)
Fixpoint feed_chars (self : ReaderObj) (line : str) : result ReaderObj :=
  match line with
  | [] => Ok self
  | c :: r =>
      match parse_process_char self (Ch c) with
      | Ok self' => feed_chars self' r
      | Raise e => Raise e
      end
  end.

(** One line, then the end-of-line mark. *)
Definition feed_line (self : ReaderObj) (line : str) : result ReaderObj :=
  match feed_chars self line with
  | Ok self' => parse_process_char self' EOL
  | Raise e => Raise e
  end.

(** What the successive calls of [next(_reader)] give, for the lines the file
    still holds: the rows in order, closed by the error when one is raised.  A
    record goes on over the next line while the reader is not back at
    [START_RECORD]; at the end of the file a record left open is returned. *)
Fixpoint Reader_iternext (self : ReaderObj) (lines : list str) : list (result (list str)) :=
  match lines with
  | [] =>
      if negb (Nat.eqb (List.length (field self)) 0)
         || ParserState_eqb (state self) IN_QUOTED_FIELD
      then [Ok (fields (parse_save_field self))]
      else []
  | line :: rest =>
      match feed_line self line with
      | Raise e => [Raise e]
      | Ok self' =>
          if ParserState_eqb (state self') START_RECORD
          then Ok (fields self') :: Reader_iternext parse_reset rest
          else Reader_iternext self' rest
      end
  end.

Definition reader (lines : list str) : list (result (list str)) :=
  Reader_iternext parse_reset lines.

(** ** [processar_temperaturas] *)

(** The four dictionaries of the function. *)
Record tables : Type := mkTables {
  minimas : dict float;
  maximas : dict float;
  somas : dict float;
  medicoes : dict Z
}.

Definition empty_tables : tables :=
  {| minimas := []; maximas := []; somas := []; medicoes := [] |}.

(** [row[i]]. *)
Definition getitem (row : list str) (i : nat) : result str :=
  match nth_error row i with
  | Some s => Ok s
  | None => Raise IndexError
  end.

(** The four updates of the loop body. *)
Definition ingest (nome_da_station : str) (temperatura : float) (t : tables) : tables :=
  let medicoes' := Counter_update nome_da_station (medicoes t) in
  let '(lo, minimas1) := defaultdict_getitem inf nome_da_station (minimas t) in
  let minimas' := dict_set nome_da_station (py_min lo temperatura) minimas1 in
  let '(hi, maximas1) := defaultdict_getitem neg_inf nome_da_station (maximas t) in
  let maximas' := dict_set nome_da_station (py_max hi temperatura) maximas1 in
  let '(total, somas1) := defaultdict_getitem zero nome_da_station (somas t) in
  let somas' := dict_set nome_da_station (float_add total temperatura) somas1 in
  {| minimas := minimas'; maximas := maximas'; somas := somas'; medicoes := medicoes' |}.

Section Processar.
Context {db : UnicodeDB}.

(** The two reads at the head of the loop body. *)
Definition parse_row (row : list str) : result (str * float) :=
  match getitem row 0 with
  | Raise e => Raise e
  | Ok nome_da_station =>
      match getitem row 1 with
      | Raise e => Raise e
      | Ok campo =>
          match float_of_str campo with
          | Raise e => Raise e
          | Ok temperatura => Ok (nome_da_station, temperatura)
          end
      end
  end.

(** The loop body: the tables when it ends, and how it ends. *)
Definition process_row (row : list str) (t : tables) : tables * result unit :=
  match parse_row row with
  | Raise e => (t, Raise e)
  | Ok (nome_da_station, temperatura) => (ingest nome_da_station temperatura t, Ok tt)
  end.

(** The [for] loop over the rows the reader gives. *)
Fixpoint for_rows (rows : list (result (list str))) (t : tables) : tables * result unit :=
  match rows with
  | [] => (t, Ok tt)
  | Raise e :: _ => (t, Raise e)
  | Ok row :: rest =>
      match process_row row t with
      | (t', Ok _) => for_rows rest t'
      | (t', Raise e) => (t', Raise e)
      end
  end.

(** What the parse step makes of one line read on its own. *)
Definition parse_line (line : str) : result (str * float) :=
  match reader [line] with
  | Ok row :: _ => parse_row row
  | Raise e :: _ => Raise e
  | [] => Raise csv_Error
  end.
End Processar.

(** The second loop: minimum, mean and maximum of each station. *)
Fixpoint compute_results (items : list (str * Z)) (t : tables)
    (results : dict (float * float * float)) : result (dict (float * float * float)) :=
  match items with
  | [] => Ok results
  | (station, qtd_medicoes) :: rest =>
      let '(total, somas') := defaultdict_getitem zero station (somas t) in
      match float_truediv_int total qtd_medicoes with
      | Raise e => Raise e
      | Ok mean_temp =>
          let '(lo, minimas') := defaultdict_getitem inf station (minimas t) in
          let '(hi, maximas') := defaultdict_getitem neg_inf station (maximas t) in
          compute_results rest
            {| minimas := minimas'; maximas := maximas'; somas := somas';
               medicoes := medicoes t |}
            (dict_set station (lo, mean_temp, hi) results)
      end
  end.

Definition snapshot (t : tables) : result (dict (float * float * float)) :=
  compute_results (medicoes t) t [].

(** [<] on tuples of floats: the first pair of unequal items decides. *)
Fixpoint floats_ltb (a b : list float) : bool :=
  match a, b with
  | _, [] => false
  | [], _ :: _ => true
  | x :: a', y :: b' => if float_eq x y then floats_ltb a' b' else float_lt x y
  end.

(** [<] on the items of [results]: the station decides; the statistics are
    looked at only between items of one station, which a dictionary never
    holds. *)
Definition item_ltb (a b : str * (float * float * float)) : bool :=
  let '(ka, (a1, a2, a3)) := a in
  let '(kb, (b1, b2, b3)) := b in
  if str_eqb ka kb then floats_ltb [a1; a2; a3] [b1; b2; b3] else str_ltb ka kb.

(** [sorted]: a stable sort that compares with [<] alone. *)
Section Sorted.
Context {A : Type} (ltb : A -> A -> bool).

Fixpoint insert (x : A) (l : list A) : list A :=
  match l with
  | [] => [x]
  | y :: r => if ltb x y then x :: l else y :: insert x r
  end.

Definition sorted (l : list A) : list A :=
  fold_left (fun acc x => insert x acc) l [].
End Sorted.

(** [f"{min_temp:.1f}/{mean_temp:.1f}/{max_temp:.1f}"] for one station. *)
Definition format_item (it : str * (float * float * float)) : str * str :=
  let '(station, (min_temp, mean_temp, max_temp)) := it in
  (station,
   format_1f min_temp ++ [47] ++ format_1f mean_temp ++ [47] ++ format_1f max_temp).

Section Main.
Context {db : UnicodeDB}.

(** The tables when the first loop ends, and how it ends. *)
Definition load (lines : list str) : tables * result unit :=
  for_rows (reader lines) empty_tables.

(** The function, on the lines the opened file yields. *)
Definition processar_temperaturas (lines : list str) : result (dict str) :=
  match load lines with
  | (_, Raise e) => Raise e
  | (t, Ok _) =>
      match snapshot t with
      | Raise e => Raise e
      | Ok results =>
          let sorted_results := sorted item_ltb results in
          let formatted_results := map format_item sorted_results in
          Ok formatted_results
      end
  end.

(** The lines [main] prints for the stations, one
    [print(station, metrics, sep=': ')] each. *)
Definition main (lines : list str) : result (list str) :=
  match processar_temperaturas lines with
  | Raise e => Raise e
  | Ok resultados =>
      Ok (map (fun '(station, metrics) => station ++ lit ": " ++ metrics) resultados)
  end.
End Main.

(** ** Vocabulary of the properties *)

(** What the dictionaries answer for a station: [medicoes[k]] (a [Counter]
    counts a missing key as zero), [minimas[k]], [maximas[k]], [somas[k]]. *)
Definition count_of (k : str) (t : tables) : Z :=
  match dict_get k (medicoes t) with Some n => n | None => 0 end.
Definition min_of (k : str) (t : tables) : float :=
  fst (defaultdict_getitem inf k (minimas t)).
Definition max_of (k : str) (t : tables) : float :=
  fst (defaultdict_getitem neg_inf k (maximas t)).
Definition sum_of (k : str) (t : tables) : float :=
  fst (defaultdict_getitem zero k (somas t)).

(** A sequence of records ingested one after the other. *)
Definition ingest_all (recs : list (str * float)) (t : tables) : tables :=
  fold_left (fun t r => ingest (fst r) (snd r) t) recs t.

(** The values ingested under a station. *)
Definition values_of (k : str) (recs : list (str * float)) : list float :=
  map snd (filter (fun r => str_eqb (fst r) k) recs).

(** [m] is a least (greatest) element of [vs] for the comparison of floats. *)
Definition true_minimum (vs : list float) (m : float) : Prop :=
  In m vs /\ forall v, In v vs -> float_le m v = true.
Definition true_maximum (vs : list float) (m : float) : Prop :=
  In m vs /\ forall v, In v vs -> float_le v m = true.

(** The running statistics of one station. *)
Record AggregateState : Type := mkAggregate {
  agg_count : Z;
  agg_min : float;
  agg_max : float;
  agg_sum : float
}.

Definition state_of (k : str) (t : tables) : AggregateState :=
  {| agg_count := count_of k t; agg_min := min_of k t;
     agg_max := max_of k t; agg_sum := sum_of k t |}.

(** The state of station [k] after its values [vs] went through [ingest] in
    this order, from the empty tables. *)
Definition build (k : str) (vs : list float) : AggregateState :=
  state_of k (ingest_all (map (pair k) vs) empty_tables).

(** The merge of two states as the specification words it: pairwise minimum,
    pairwise maximum, summed sum, summed count. *)
Definition merge_spec (a b : AggregateState) : AggregateState :=
  {| agg_count := agg_count a + agg_count b;
     agg_min := py_min (agg_min a) (agg_min b);
     agg_max := py_max (agg_max a) (agg_max b);
     agg_sum := float_add (agg_sum a) (agg_sum b) |}.

(** [==] on states, field by field. *)
Definition AggregateState_eqb (a b : AggregateState) : bool :=
  (agg_count a =? agg_count b) && float_eq (agg_min a) (agg_min b)
  && float_eq (agg_max a) (agg_max b) && float_eq (agg_sum a) (agg_sum b).

(** The text of a line before its first delimiter, and after it. *)
Fixpoint before_delim (s : str) : str :=
  match s with
  | [] => []
  | c :: r => if c =? delimiter then [] else c :: before_delim r
  end.

Fixpoint after_delim (s : str) : option str :=
  match s with
  | [] => None
  | c :: r => if c =? delimiter then Some r else after_delim r
  end.

(** The fields of a text, cut at every delimiter; [fs] are the fields already
    closed and [f] is the open one. *)
Fixpoint split_fields (fs : list str) (f : str) (s : str) : list str :=
  match s with
  | [] => fs ++ [f]
  | c :: r =>
      if c =? delimiter then split_fields (fs ++ [f]) [] r
      else split_fields fs (f ++ [c]) r
  end.

(** A text without quote character, carriage return or line feed. *)
Definition plain (s : str) : Prop :=
  Forall (fun c => c <> quotechar /\ is_newline c = false) s.

(** A line terminator as the reader eats it: carriage returns and line feeds. *)
Definition terminator (s : str) : Prop :=
  Forall (fun c => is_newline c = true) s.

(** The spellings of a NaN that [float] accepts: an optional sign, then the
    letters n, a, n in either case. *)
Definition nan_literals : list str :=
  flat_map (fun sign =>
    flat_map (fun c1 =>
      flat_map (fun c2 =>
        map (fun c3 => sign ++ [c1; c2; c3]) [110; 78]) [97; 65]) [110; 78])
    [[]; [43]; [45]].

(** A line that is a record of its own: read from [START_RECORD], it brings the
    reader back to [START_RECORD]. *)
Definition whole_record (line : str) : Prop :=
  exists self, feed_line parse_reset line = Ok self /\ state self = START_RECORD.

(** A Unicode database without spaces and digits from U+007F on, to run the
    function on ASCII text, for which [float] does not consult the tables. *)
Definition ascii_db : UnicodeDB :=
  {| Py_UNICODE_ISSPACE := fun _ => false; Py_UNICODE_TODECIMAL := fun _ => -1 |}.

(** The line feed that closes a line of the file. *)
Definition LF : str := [10].

(** The rank of a float that is not NaN: comparing floats is comparing ranks
    lexicographically. *)
Definition rank (x : float) : Z * Z * Z :=
  match x with
  | S754_infinity true => (-2, 0, 0)
  | S754_finite true m e => (-1, - e, - Zpos m)
  | S754_zero _ => (0, 0, 0)
  | S754_nan => (0, 0, 0)
  | S754_finite false m e => (1, e, Zpos m)
  | S754_infinity false => (2, 0, 0)
  end.

Definition rank_lt (r s : Z * Z * Z) : Prop :=
  let '(c1, p1, q1) := r in
  let '(c2, p2, q2) := s in
  c1 < c2 \/ (c1 = c2 /\ (p1 < p2 \/ (p1 = p2 /\ q1 < q2))).

(** The reader between two fields, or inside a field without quotes. *)
Definition unquoted (self : ReaderObj) : Prop :=
  state self = IN_FIELD \/ (state self = START_FIELD /\ field self = []).

(** The records the loop ingests: those of the rows that parse, up to the
    first row (or reader error) that does not. *)
Section Ingested.
Context {db : UnicodeDB}.

Fixpoint ingested (rows : list (result (list str))) : list (str * float) :=
  match rows with
  | Ok row :: rest =>
      match parse_row row with
      | Ok r => r :: ingested rest
      | Raise _ => []
      end
  | _ => []
  end.
End Ingested.

(** The stations of a sequence of keys, each once, in the order of their
    first appearance. *)
Definition first_seen (ks : list str) : list str :=
  fold_left (fun acc k => if existsb (str_eqb k) acc then acc else acc ++ [k]) ks [].

(** The sum of the counts of a [Counter]. *)
Definition total_count (c : dict Z) : Z :=
  fold_right (fun it acc => snd it + acc) 0 c.

(** A line that leaves no quoted field open: once read from [START_RECORD],
    the reader is back at [START_RECORD] (or has raised). *)
Definition closed_line (line : str) : Prop :=
  forall self, feed_line parse_reset line = Ok self -> state self = START_RECORD.

(** An ASCII digit. *)
Definition digit_char (c : char) : Prop := 48 <= c <= 57.

(** A number written with one decimal: an optional minus sign, digits, a
    point and one digit. *)
Definition one_decimal (s : str) : Prop :=
  exists sign ip d,
    s = sign ++ ip ++ [46; d] /\ (sign = [] \/ sign = [45]) /\
    ip <> [] /\ Forall digit_char ip /\ digit_char d.

(** The text of [n] tenths with one decimal: an optional minus sign, the
    digits of the integer part, a point and one digit, as [-5.5] for [-55]. *)
Definition tenths_text (n : Z) : str :=
  (if n <? 0 then [45] else []) ++ decimal_digits (Z.abs n / 10) ++ [46]
  ++ decimal_digits (Z.abs n mod 10).

(** Whether a reading of [n] tenths that is alone under its station comes out
    as it was written: [float] accepts the text, and the minimum, the mean
    (the sum from 0.0 divided by the count 1) and the maximum are formatted
    to the same text. *)
Definition printed_back (n : Z) : bool :=
  let s := tenths_text n in
  forallb (fun c => c <? 128) s &&
  match @float_of_str ascii_db s with
  | Ok x =>
      match float_truediv_int (float_add zero x) 1 with
      | Ok mean =>
          str_eqb (format_1f (py_min inf x)) s && str_eqb (format_1f mean) s
          && str_eqb (format_1f (py_max neg_inf x)) s
      | Raise _ => false
      end
  | Raise _ => false
  end.

(** A malformed line in the words of the specification: the delimiter is
    missing, the key is empty, the value is not a number, or the value is a
    NaN.  ([body] is the line without its terminator; the key is the text
    before the first delimiter and the value the text after it.) *)
Section MalformedBySpec.
Context {db : UnicodeDB}.

Definition malformed_by_spec (body : str) : Prop :=
  match after_delim body with
  | None => True
  | Some value =>
      before_delim body = [] \/
      match float_of_str value with
      | Raise _ => True
      | Ok v => is_nan v = true
      end
  end.
End MalformedBySpec.

(** ** The function in its environment

    [open], the iterator of the file, the closing of the file at the end of
    the [with] block and the two calls of [print] can raise exceptions of
    their own ([FileNotFoundError], [UnicodeDecodeError], [UnicodeEncodeError]
    and the like), which the function does not catch.  Whether they do is for
    the environment to say; [E] is the type of its exceptions. *)

Inductive raised (E : Type) : Type :=
| Program (e : exn)
| Environment (e : E).
Arguments Program {E} e.
Arguments Environment {E} e.

Inductive outcome (E A : Type) : Type :=
| Returns (a : A)
| Raises (r : raised E).
Arguments Returns {E A} a.
Arguments Raises {E A} r.

Record world (E : Type) : Type := mkWorld {
  (** what [open] raises, when it does *)
  open_file : option E;
  (** the lines the iterator of the file yields *)
  file_lines : list str;
  (** what the iterator raises after these lines, when it does not end *)
  read_stops : option E;
  (** what closing the file raises, when it does *)
  close_file : option E;
  (** what the [print] after the first loop raises, when it does *)
  print_loaded : option E;
  (** what the [print] after the second loop raises, when it does *)
  print_computed : option E
}.
Arguments open_file {E} w.
Arguments file_lines {E} w.
Arguments read_stops {E} w.
Arguments close_file {E} w.
Arguments print_loaded {E} w.
Arguments print_computed {E} w.

(** The rows the reader gives before the iterator of the file raises: as
    [Reader_iternext], but the reader passes the exception on, and a record
    left open is lost. *)
Fixpoint Reader_iternext_cut (self : ReaderObj) (lines : list str)
    : list (result (list str)) :=
  match lines with
  | [] => []
  | line :: rest =>
      match feed_line self line with
      | Raise e => [Raise e]
      | Ok self' =>
          if ParserState_eqb (state self') START_RECORD
          then Ok (fields self') :: Reader_iternext_cut parse_reset rest
          else Reader_iternext_cut self' rest
      end
  end.

Section Environment.
Context {db : UnicodeDB} {E : Type}.

(** The rows of the first loop. *)
Definition rows_of (w : world E) : list (result (list str)) :=
  match read_stops w with
  | None => reader (file_lines w)
  | Some _ => Reader_iternext_cut parse_reset (file_lines w)
  end.

(** The [for] loop inside the [with] block: the tables, and the exception
    that ends the loop, when one does.  ([tqdm] hands the rows on as the
    reader gives them; its display is left out.) *)
Definition first_loop (w : world E) : tables * option (raised E) :=
  match for_rows (rows_of w) empty_tables with
  | (t, Raise e) => (t, Some (Program e))
  | (t, Ok _) =>
      match read_stops w with
      | Some e => (t, Some (Environment e))
      | None => (t, None)
      end
  end.

(** The function, statement by statement. *)
Definition processar_temperaturas_in (w : world E) : outcome E (dict str) :=
  match open_file w with
  | Some e => Raises (Environment e)
  | None =>
      let '(t, r) := first_loop w in
      match close_file w with
      | Some e => Raises (Environment e)
      | None =>
          match r with
          | Some x => Raises x
          | None =>
              match print_loaded w with
              | Some e => Raises (Environment e)
              | None =>
                  match snapshot t with
                  | Raise e => Raises (Program e)
                  | Ok results =>
                      match print_computed w with
                      | Some e => Raises (Environment e)
                      | None => Returns (map format_item (sorted item_ltb results))
                      end
                  end
              end
          end
      end
  end.
End Environment.

(** * Properties *)

(** ** The model on small inputs *)

Example float_decimal {db : UnicodeDB} :
  float_of_str (lit "-5.5") = Ok (S754_finite true (11 * 2 ^ 49) (-50)).
Proof. reflexivity. Qed.

Example float_exponent_and_underscore {db : UnicodeDB} :
  float_of_str (lit " 1_0e-1 ") = Ok (S754_finite false (2 ^ 52) (-52)).
Proof. reflexivity. Qed.

Example float_infinity {db : UnicodeDB} :
  float_of_str (lit "-Infinity") = Ok neg_inf.
Proof. reflexivity. Qed.

Example float_rejects_empty {db : UnicodeDB} :
  float_of_str [] = Raise ValueError.
Proof. reflexivity. Qed.

Example float_rejects_hexadecimal {db : UnicodeDB} :
  float_of_str (lit "0x10") = Raise ValueError.
Proof. reflexivity. Qed.

Example format_rounds_half_to_even :
  format_1f (decimal_to_float false 25 (-2)) = lit "0.2".
Proof. reflexivity. Qed.

Example format_rounds_the_binary_value :
  format_1f (decimal_to_float false 35 (-2)) = lit "0.3".
Proof. reflexivity. Qed.

Example format_keeps_the_sign_of_zero :
  format_1f (decimal_to_float true 4 (-2)) = lit "-0.0".
Proof. reflexivity. Qed.

Example reader_unquoted : reader [lit "A;1.0;2.0" ++ LF] = [Ok [lit "A"; lit "1.0"; lit "2.0"]].
Proof. reflexivity. Qed.

Example reader_quoted_delimiter :
  reader [[34] ++ lit "A;B" ++ [34] ++ lit ";1.0" ++ LF] = [Ok [lit "A;B"; lit "1.0"]].
Proof. reflexivity. Qed.

Example reader_record_over_two_lines :
  reader [[34] ++ lit "A" ++ LF; lit "B" ++ [34] ++ lit ";2" ++ LF]
  = [Ok [lit "A" ++ LF ++ lit "B"; lit "2"]].
Proof. reflexivity. Qed.

Example reader_empty_line : reader [LF] = [Ok []].
Proof. reflexivity. Qed.

Example reader_carriage_return_inside :
  reader [lit "A;1" ++ [13] ++ lit "B" ++ LF] = [Raise csv_Error].
Proof. reflexivity. Qed.

(** The same value three times: minimum, mean and maximum are that value. *)
Example one_station_three_times {db : UnicodeDB} :
  main [lit "A;1.0" ++ LF; lit "A;1.0" ++ LF; lit "A;1.0" ++ LF]
  = Ok [lit "A: 1.0/1.0/1.0"].
Proof. reflexivity. Qed.

(** An empty file: nothing to print. *)
Example empty_input {db : UnicodeDB} : main [] = Ok [].
Proof. reflexivity. Qed.

(** A line without delimiter. *)
Example line_without_delimiter {db : UnicodeDB} :
  parse_line (lit "X" ++ LF) = Raise IndexError.
Proof. reflexivity. Qed.

(** ** Strings *)

Lemma str_eqb_eq (a b : str) : str_eqb a b = true <-> a = b.
Proof.
  revert b; induction a as [|x a IH]; intros [|y b]; simpl; split; intro H;
    try reflexivity; try discriminate.
  - apply andb_prop in H as [Hx Hab]. apply Z.eqb_eq in Hx. apply IH in Hab.
    now subst.
  - injection H as -> ->. rewrite Z.eqb_refl. simpl. now apply IH.
Qed.

Lemma str_eqb_refl (a : str) : str_eqb a a = true.
Proof. now apply str_eqb_eq. Qed.

Lemma str_eqb_neq (a b : str) : str_eqb a b = false <-> a <> b.
Proof.
  split.
  - intros H E. apply str_eqb_eq in E. congruence.
  - intro H. destruct (str_eqb a b) eqn:E; [|reflexivity].
    apply str_eqb_eq in E. contradiction.
Qed.

(** ** Dictionaries *)

Section DictFacts.
Context {V : Type}.
Implicit Types (d : dict V) (k : str) (v : V).

Lemma dict_get_set_same d k v : dict_get k (dict_set k v d) = Some v.
Proof.
  induction d as [|[k' v'] d IH]; simpl.
  - now rewrite str_eqb_refl.
  - destruct (str_eqb k k') eqn:E; simpl; rewrite E; [reflexivity|exact IH].
Qed.

Lemma dict_get_set_other d k k' v :
  k' <> k -> dict_get k' (dict_set k v d) = dict_get k' d.
Proof.
  intro Hne. induction d as [|[k0 v0] d IH]; simpl.
  - apply str_eqb_neq in Hne. now rewrite Hne.
  - destruct (str_eqb k k0) eqn:E; simpl.
    + apply str_eqb_eq in E. subst k0.
      apply str_eqb_neq in Hne. now rewrite Hne.
    + now rewrite IH.
Qed.

Lemma dict_get_default_other d k k' (dv : V) :
  k' <> k -> dict_get k' (snd (defaultdict_getitem dv k d)) = dict_get k' d.
Proof.
  intro Hne. unfold defaultdict_getitem.
  destruct (dict_get k d); simpl; [reflexivity|].
  now apply dict_get_set_other.
Qed.

Lemma keys_dict_set_in d k v : In k (keys d) -> keys (dict_set k v d) = keys d.
Proof.
  induction d as [|[k0 v0] d IH]; simpl; [contradiction|].
  intros [->|Hin].
  - now rewrite str_eqb_refl.
  - destruct (str_eqb k k0) eqn:E; simpl; [reflexivity|].
    f_equal. now apply IH.
Qed.

Lemma keys_dict_set_notin d k v :
  ~ In k (keys d) -> keys (dict_set k v d) = keys d ++ [k].
Proof.
  induction d as [|[k0 v0] d IH]; simpl; [reflexivity|].
  intro Hn. destruct (str_eqb k k0) eqn:E.
  - apply str_eqb_eq in E. subst. exfalso. apply Hn. now left.
  - simpl. f_equal. apply IH. intro. apply Hn. now right.
Qed.

Lemma keys_dict_set_cases d k v :
  keys (dict_set k v d) = keys d \/
  (~ In k (keys d) /\ keys (dict_set k v d) = keys d ++ [k]).
Proof.
  destruct (in_dec (list_eq_dec Z.eq_dec) k (keys d)) as [Hin|Hn].
  - left. now apply keys_dict_set_in.
  - right. split; [exact Hn|]. now apply keys_dict_set_notin.
Qed.

Lemma NoDup_keys_dict_set d k v : NoDup (keys d) -> NoDup (keys (dict_set k v d)).
Proof.
  intro Hnd. destruct (keys_dict_set_cases d k v) as [->|[Hn ->]]; [exact Hnd|].
  apply (Permutation_NoDup (Permutation_cons_append (keys d) k)).
  now constructor.
Qed.
End DictFacts.

(** ** The comparison of floats *)

Lemma float_lt_spec (a b : float) :
  float_lt a b = true <-> SFcompare a b = Some Lt.
Proof.
  unfold float_lt, SFltb. destruct (SFcompare a b) as [[]|]; split; congruence.
Qed.

Lemma float_le_spec (a b : float) :
  float_le a b = true <-> SFcompare a b = Some Lt \/ SFcompare a b = Some Eq.
Proof.
  unfold float_le, SFleb.
  destruct (SFcompare a b) as [[]|]; split; try tauto; try congruence;
    intros [H|H]; congruence.
Qed.

Lemma float_eq_spec (a b : float) :
  float_eq a b = true <-> SFcompare a b = Some Eq.
Proof.
  unfold float_eq, SFeqb. destruct (SFcompare a b) as [[]|]; split; congruence.
Qed.

Ltac rank_cases :=
  let H := fresh "H" in
  simpl; split; intro H;
  try discriminate H; try reflexivity; try (injection H; intros);
  try (exfalso; lia); try lia; try (f_equal; [f_equal|]; lia).

Lemma SFcompare_Lt_rank (a b : float) :
  is_nan a = false -> is_nan b = false ->
  (SFcompare a b = Some Lt <-> rank_lt (rank a) (rank b)).
Proof.
  destruct a as [sa|sa| |sa ma ea], b as [sb|sb| |sb mb eb]; simpl;
    try discriminate; intros _ _.
  1-8: destruct sa, sb; rank_cases.
  change (Pos.compare_cont Eq ma mb) with (Pos.compare ma mb).
  destruct sa, sb; simpl;
    destruct (Z.compare_spec ea eb); destruct (Pos.compare_spec ma mb);
    rank_cases.
Qed.

Lemma SFcompare_Eq_rank (a b : float) :
  is_nan a = false -> is_nan b = false ->
  (SFcompare a b = Some Eq <-> rank a = rank b).
Proof.
  destruct a as [sa|sa| |sa ma ea], b as [sb|sb| |sb mb eb]; simpl;
    try discriminate; intros _ _.
  1-8: destruct sa, sb; rank_cases.
  change (Pos.compare_cont Eq ma mb) with (Pos.compare ma mb).
  destruct sa, sb; simpl;
    destruct (Z.compare_spec ea eb); destruct (Pos.compare_spec ma mb);
    rank_cases.
Qed.

Lemma float_lt_rank (a b : float) :
  is_nan a = false -> is_nan b = false ->
  (float_lt a b = true <-> rank_lt (rank a) (rank b)).
Proof.
  intros Ha Hb. rewrite float_lt_spec. now apply SFcompare_Lt_rank.
Qed.

Lemma float_le_rank (a b : float) :
  is_nan a = false -> is_nan b = false ->
  (float_le a b = true <-> rank_lt (rank a) (rank b) \/ rank a = rank b).
Proof.
  intros Ha Hb. rewrite float_le_spec.
  rewrite (SFcompare_Lt_rank a b Ha Hb), (SFcompare_Eq_rank a b Ha Hb). tauto.
Qed.

Lemma float_eq_rank (a b : float) :
  is_nan a = false -> is_nan b = false ->
  (float_eq a b = true <-> rank a = rank b).
Proof.
  intros Ha Hb. rewrite float_eq_spec. now apply SFcompare_Eq_rank.
Qed.

Lemma rank_lt_trichotomy (r s : Z * Z * Z) : rank_lt r s \/ r = s \/ rank_lt s r.
Proof.
  destruct r as [[c1 p1] q1], s as [[c2 p2] q2]; simpl.
  destruct (Z.lt_trichotomy c1 c2) as [H|[H|H]]; [lia| |lia].
  destruct (Z.lt_trichotomy p1 p2) as [H'|[H'|H']]; [lia| |lia].
  destruct (Z.lt_trichotomy q1 q2) as [H''|[H''|H'']]; [lia| |lia].
  right; left. congruence.
Qed.

Lemma rank_lt_trans (r s u : Z * Z * Z) : rank_lt r s -> rank_lt s u -> rank_lt r u.
Proof.
  destruct r as [[c1 p1] q1], s as [[c2 p2] q2], u as [[c3 p3] q3]; simpl. lia.
Qed.

Lemma rank_lt_irrefl (r : Z * Z * Z) : ~ rank_lt r r.
Proof. destruct r as [[c1 p1] q1]; simpl. lia. Qed.

(** A value that is not below [a] is at least [a]. *)
Lemma float_not_lt_le (a b : float) :
  is_nan a = false -> is_nan b = false -> float_lt b a = false -> float_le a b = true.
Proof.
  intros Ha Hb H. apply float_le_rank; trivial.
  destruct (rank_lt_trichotomy (rank a) (rank b)) as [Hl|[He|Hg]]; auto.
  apply (float_lt_rank b a Hb Ha) in Hg. congruence.
Qed.

Lemma float_lt_le (a b : float) : float_lt a b = true -> float_le a b = true.
Proof. rewrite float_lt_spec, float_le_spec. auto. Qed.

Lemma float_le_not_nan (a b : float) :
  float_le a b = true -> is_nan a = false /\ is_nan b = false.
Proof. destruct a, b; simpl; try discriminate; auto. Qed.

Lemma float_le_refl (a : float) : is_nan a = false -> float_le a a = true.
Proof. intro Ha. apply float_le_rank; auto. Qed.

Lemma float_le_trans (a b c : float) :
  float_le a b = true -> float_le b c = true -> float_le a c = true.
Proof.
  intros Hab Hbc.
  destruct (float_le_not_nan _ _ Hab) as [Ha Hb].
  destruct (float_le_not_nan _ _ Hbc) as [_ Hc].
  apply float_le_rank in Hab, Hbc; trivial. apply float_le_rank; trivial.
  destruct Hab as [Hab|Hab], Hbc as [Hbc|Hbc].
  - left. eapply rank_lt_trans; eassumption.
  - left. now rewrite <- Hbc.
  - left. now rewrite Hab.
  - right. congruence.
Qed.

Lemma float_le_antisym (a b : float) :
  float_le a b = true -> float_le b a = true -> float_eq a b = true.
Proof.
  intros Hab Hba. destruct (float_le_not_nan _ _ Hab) as [Ha Hb].
  apply float_le_rank in Hab, Hba; trivial. apply float_eq_rank; trivial.
  destruct Hab as [Hab|Hab]; [|exact Hab].
  destruct Hba as [Hba|Hba]; [|congruence].
  exfalso. exact (rank_lt_irrefl _ (rank_lt_trans _ _ _ Hab Hba)).
Qed.

Lemma float_inf_le (a : float) : float_le inf a = true -> a = inf.
Proof.
  destruct a as [s|s| |s m e]; try destruct s; intro H;
    try reflexivity; discriminate H.
Qed.

Lemma float_le_neg_inf_eq (a : float) : float_le a neg_inf = true -> a = neg_inf.
Proof.
  destruct a as [s|s| |s m e]; try destruct s; intro H;
    try reflexivity; discriminate H.
Qed.

(** ** Running minimum and maximum *)

Section Extremum.
Variables le lt : float -> float -> bool.
Hypothesis le_total : forall a b,
  is_nan a = false -> is_nan b = false -> lt b a = false -> le a b = true.
Hypothesis lt_le : forall a b, lt a b = true -> le a b = true.
Hypothesis le_refl : forall a, is_nan a = false -> le a a = true.
Hypothesis le_trans : forall a b c, le a b = true -> le b c = true -> le a c = true.

(** The value kept after a run of picks is one of the values seen, the start
    included, and it is below all of them. *)
Lemma fold_pick_spec (vs : list float) (a : float) :
  is_nan a = false -> Forall (fun v => is_nan v = false) vs ->
  let m := fold_left (fun a b => if lt b a then b else a) vs a in
  is_nan m = false /\ (m = a \/ In m vs) /\ le m a = true /\
  (forall v, In v vs -> le m v = true).
Proof.
  revert a. induction vs as [|x vs IH]; intros a Ha Hvs; simpl.
- repeat split; auto; intros v [].
- inversion Hvs as [|? ? Hx Hvs']; subst.
  set (p := if lt x a then x else a).
  assert (Hp : is_nan p = false).
  { unfold p. destruct (lt x a); assumption. }
  assert (Hpa : le p a = true).
  { unfold p. destruct (lt x a) eqn:E; auto. }
  assert (Hpx : le p x = true).
  { unfold p. destruct (lt x a) eqn:E; auto. }
  destruct (IH p Hp Hvs') as (Hm & Hin & Hle & Hall).
  repeat split.
  + exact Hm.
  + destruct Hin as [Hin|Hin]; [|now right; right].
    rewrite Hin. unfold p. destruct (lt x a); [right; now left|now left].
  + eapply le_trans; eassumption.
  + intros v [<-|Hv]; [|now apply Hall].
    eapply le_trans; eassumption.
Qed.
End Extremum.

Lemma fold_py_min_spec (vs : list float) (a : float) :
  is_nan a = false -> Forall (fun v => is_nan v = false) vs ->
  let m := fold_left py_min vs a in
  is_nan m = false /\ (m = a \/ In m vs) /\ float_le m a = true /\
  (forall v, In v vs -> float_le m v = true).
Proof.
  apply (fold_pick_spec float_le float_lt).
  - exact float_not_lt_le.
  - exact float_lt_le.
  - exact float_le_refl.
  - exact float_le_trans.
Qed.

Lemma fold_py_max_spec (vs : list float) (a : float) :
  is_nan a = false -> Forall (fun v => is_nan v = false) vs ->
  let m := fold_left py_max vs a in
  is_nan m = false /\ (m = a \/ In m vs) /\ float_le a m = true /\
  (forall v, In v vs -> float_le v m = true).
Proof.
  apply (fold_pick_spec (fun x y => float_le y x) (fun x y => float_lt y x)).
  - intros x y Hx Hy H. now apply float_not_lt_le.
  - intros x y. apply float_lt_le.
  - exact float_le_refl.
  - intros x y z Hxy Hyz. eapply float_le_trans; eassumption.
Qed.

(** A NaN leaves the running minimum and maximum as they are. *)
Lemma py_min_nan (a : float) : py_min a nan = a.
Proof. unfold py_min. now destruct a. Qed.

Lemma py_max_nan (a : float) : py_max a nan = a.
Proof. unfold py_max. now destruct a as [s|s| |s m e]. Qed.

(** ** One ingest, read station by station *)

Lemma ingest_unfold (k : str) (v : float) (t : tables) :
  ingest k v t =
  {| minimas := dict_set k (py_min (min_of k t) v)
                  (snd (defaultdict_getitem inf k (minimas t)));
     maximas := dict_set k (py_max (max_of k t) v)
                  (snd (defaultdict_getitem neg_inf k (maximas t)));
     somas := dict_set k (float_add (sum_of k t) v)
                  (snd (defaultdict_getitem zero k (somas t)));
     medicoes := dict_set k (count_of k t + 1) (medicoes t) |}.
Proof.
  unfold ingest, min_of, max_of, sum_of, count_of, Counter_update.
  destruct (defaultdict_getitem inf k (minimas t)).
  destruct (defaultdict_getitem neg_inf k (maximas t)).
  destruct (defaultdict_getitem zero k (somas t)).
  reflexivity.
Qed.

Lemma fst_defaultdict_getitem {V : Type} (dv : V) (k : str) (d : dict V) :
  fst (defaultdict_getitem dv k d)
  = match dict_get k d with Some x => x | None => dv end.
Proof. unfold defaultdict_getitem. now destruct (dict_get k d). Qed.

Lemma count_of_ingest_same k v t : count_of k (ingest k v t) = count_of k t + 1.
Proof.
  rewrite ingest_unfold. unfold count_of at 1. simpl.
  now rewrite dict_get_set_same.
Qed.

Lemma min_of_ingest_same k v t : min_of k (ingest k v t) = py_min (min_of k t) v.
Proof.
  rewrite ingest_unfold. unfold min_of at 1. simpl.
  now rewrite fst_defaultdict_getitem, dict_get_set_same.
Qed.

Lemma max_of_ingest_same k v t : max_of k (ingest k v t) = py_max (max_of k t) v.
Proof.
  rewrite ingest_unfold. unfold max_of at 1. simpl.
  now rewrite fst_defaultdict_getitem, dict_get_set_same.
Qed.

Lemma sum_of_ingest_same k v t : sum_of k (ingest k v t) = float_add (sum_of k t) v.
Proof.
  rewrite ingest_unfold. unfold sum_of at 1. simpl.
  now rewrite fst_defaultdict_getitem, dict_get_set_same.
Qed.

Lemma ingest_get_other (k k' : str) (v : float) (t : tables) :
  k' <> k ->
  dict_get k' (medicoes (ingest k v t)) = dict_get k' (medicoes t) /\
  dict_get k' (minimas (ingest k v t)) = dict_get k' (minimas t) /\
  dict_get k' (maximas (ingest k v t)) = dict_get k' (maximas t) /\
  dict_get k' (somas (ingest k v t)) = dict_get k' (somas t).
Proof.
  intro Hne. rewrite ingest_unfold. simpl.
  rewrite !dict_get_set_other by exact Hne.
  rewrite !dict_get_default_other by exact Hne.
  auto.
Qed.

Lemma state_of_ingest_other (k k' : str) (v : float) (t : tables) :
  k' <> k -> state_of k' (ingest k v t) = state_of k' t.
Proof.
  intro Hne. destruct (ingest_get_other k k' v t Hne) as (Hc & Hlo & Hhi & Hs).
  unfold state_of, count_of, min_of, max_of, sum_of.
  rewrite !fst_defaultdict_getitem. now rewrite Hc, Hlo, Hhi, Hs.
Qed.

(** The state of a station after a sequence of ingests is the fold of its
    own values. *)
Lemma state_of_ingest_all (k : str) (recs : list (str * float)) (t : tables) :
  state_of k (ingest_all recs t) =
  {| agg_count := count_of k t + Z.of_nat (List.length (values_of k recs));
     agg_min := fold_left py_min (values_of k recs) (min_of k t);
     agg_max := fold_left py_max (values_of k recs) (max_of k t);
     agg_sum := fold_left float_add (values_of k recs) (sum_of k t) |}.
Proof.
  revert t. induction recs as [|[k0 v0] recs IH]; intro t.
  - simpl. unfold state_of. f_equal. lia.
  - unfold ingest_all. simpl fold_left. fold (ingest_all recs (ingest k0 v0 t)).
    rewrite IH. unfold values_of. simpl filter.
    destruct (str_eqb k0 k) eqn:E.
    + apply str_eqb_eq in E. subst k0. simpl.
      rewrite count_of_ingest_same, min_of_ingest_same, max_of_ingest_same,
        sum_of_ingest_same.
      f_equal. lia.
    + apply str_eqb_neq in E.
      assert (Hs := state_of_ingest_other k0 k v0 t (not_eq_sym E)).
      unfold state_of in Hs. injection Hs as Hc Hlo Hhi Hsum.
      now rewrite Hc, Hlo, Hhi, Hsum.
Qed.

Lemma values_of_same (k : str) (vs : list float) :
  values_of k (map (pair k) vs) = vs.
Proof.
  unfold values_of. induction vs as [|v vs IH]; simpl; [reflexivity|].
  rewrite str_eqb_refl. simpl. now rewrite IH.
Qed.

Lemma build_eq (k : str) (vs : list float) :
  build k vs =
  {| agg_count := Z.of_nat (List.length vs);
     agg_min := fold_left py_min vs inf;
     agg_max := fold_left py_max vs neg_inf;
     agg_sum := fold_left float_add vs zero |}.
Proof.
  unfold build. rewrite state_of_ingest_all, values_of_same. reflexivity.
Qed.

(** ** The frame of one ingest *)

(** C10.  Ingesting one record of station [k] changes the entries of [k]
    alone: for every other station [k'] the count, the minimum, the maximum and
    the sum the four dictionaries hold are the ones they held before. *)
Theorem ingest_changes_only_its_station (k k' : str) (v : float) (t : tables) :
  k' <> k ->
  dict_get k' (medicoes (ingest k v t)) = dict_get k' (medicoes t) /\
  dict_get k' (minimas (ingest k v t)) = dict_get k' (minimas t) /\
  dict_get k' (maximas (ingest k v t)) = dict_get k' (maximas t) /\
  dict_get k' (somas (ingest k v t)) = dict_get k' (somas t).
Proof. apply ingest_get_other. Qed.

Lemma ingest_changes_only_its_station_witness :
  let t := ingest (lit "B") (decimal_to_float true 55 (-1)) empty_tables in
  let t' := ingest (lit "A") (decimal_to_float false 100 (-1)) t in
  lit "B" <> lit "A" /\
  dict_get (lit "B") (medicoes t') = dict_get (lit "B") (medicoes t) /\
  dict_get (lit "B") (minimas t') = dict_get (lit "B") (minimas t) /\
  dict_get (lit "B") (maximas t') = dict_get (lit "B") (maximas t) /\
  dict_get (lit "B") (somas t') = dict_get (lit "B") (somas t).
Proof.
  split; [discriminate|].
  apply (ingest_changes_only_its_station (lit "A") (lit "B")). discriminate.
Defined.

(** ** Minimum and maximum of a station *)

(** C2, as stated, fails: a record whose value is NaN counts for its station
    and leaves the stored minimum at plus infinity, which is none of the values
    ingested. *)
Lemma min_max_claim_fails_on_nan :
  ~ (forall (recs : list (str * float)) (k : str),
       0 < count_of k (ingest_all recs empty_tables) ->
       true_minimum (values_of k recs) (min_of k (ingest_all recs empty_tables)) /\
       true_maximum (values_of k recs) (max_of k (ingest_all recs empty_tables))).
Proof.
  intro H. destruct (H [(lit "A", nan)] (lit "A")) as [[Hin _] _].
  - reflexivity.
  - vm_compute in Hin. destruct Hin as [Hin|[]]. discriminate Hin.
Qed.

(** C2, amended.  After any sequence of ingests, for every station with a
    positive count none of whose own values is NaN (the values of the other
    stations may be), the stored minimum and maximum are among the values
    ingested under the station and bound all of them: [min(k) <= v <= max(k)]
    for each such value [v]. *)
Theorem min_max_are_true_extrema (recs : list (str * float)) (k : str) :
  Forall (fun v => is_nan v = false) (values_of k recs) ->
  0 < count_of k (ingest_all recs empty_tables) ->
  true_minimum (values_of k recs) (min_of k (ingest_all recs empty_tables)) /\
  true_maximum (values_of k recs) (max_of k (ingest_all recs empty_tables)).
Proof.
  intros Hvs Hcount.
  pose proof (state_of_ingest_all k recs empty_tables) as Hs.
  unfold state_of in Hs. injection Hs as Hc Hlo Hhi _.
  rewrite Hc in Hcount. rewrite Hlo, Hhi.
  change (count_of k empty_tables) with 0 in Hcount.
  change (min_of k empty_tables) with inf.
  change (max_of k empty_tables) with neg_inf.
  destruct (values_of k recs) as [|x vs] eqn:Evs; [simpl in Hcount; lia|].
  split.
  - destruct (fold_py_min_spec (x :: vs) inf eq_refl Hvs) as (_ & Hin & _ & Hall).
    split; [|exact Hall].
    destruct Hin as [Hin|Hin]; [|exact Hin].
    left. rewrite Hin in Hall |- *.
    apply float_inf_le. apply Hall. now left.
  - destruct (fold_py_max_spec (x :: vs) neg_inf eq_refl Hvs) as (_ & Hin & _ & Hall).
    split; [|exact Hall].
    destruct Hin as [Hin|Hin]; [|exact Hin].
    left. rewrite Hin in Hall |- *.
    apply float_le_neg_inf_eq. apply Hall. now left.
Qed.

Lemma min_max_are_true_extrema_witness :
  let recs := [(lit "A", decimal_to_float false 100 (-1)); (lit "B", nan);
               (lit "A", decimal_to_float false 200 (-1));
               (lit "B", decimal_to_float true 55 (-1))] in
  true_minimum (values_of (lit "A") recs)
    (min_of (lit "A") (ingest_all recs empty_tables)) /\
  true_maximum (values_of (lit "A") recs)
    (max_of (lit "A") (ingest_all recs empty_tables)).
Proof.
  apply min_max_are_true_extrema.
  - repeat constructor.
  - reflexivity.
Defined.

(** ** Merging two states *)

Lemma merged_min_eq (xs ys zs : list float) :
  Forall (fun v => is_nan v = false) xs -> Forall (fun v => is_nan v = false) ys ->
  Permutation zs (xs ++ ys) ->
  float_eq (py_min (fold_left py_min xs inf) (fold_left py_min ys inf))
           (fold_left py_min zs inf) = true.
Proof.
  intros Hxs Hys Hperm.
  assert (Hzs : Forall (fun v => is_nan v = false) zs).
  { apply Forall_forall. intros v Hv.
    apply (Permutation_in _ Hperm) in Hv. apply in_app_or in Hv.
    rewrite Forall_forall in Hxs, Hys. destruct Hv; auto. }
  destruct (fold_py_min_spec xs inf eq_refl Hxs) as (Ha & Hain & Hatop & Haall).
  destruct (fold_py_min_spec ys inf eq_refl Hys) as (Hb & Hbin & Hbtop & Hball).
  destruct (fold_py_min_spec zs inf eq_refl Hzs) as (Hc & Hcin & Hctop & Hcall).
  set (a := fold_left py_min xs inf) in *.
  set (b := fold_left py_min ys inf) in *.
  set (c := fold_left py_min zs inf) in *.
  assert (Hma : float_le (py_min a b) a = true).
  { unfold py_min. destruct (float_lt b a) eqn:E.
    - now apply float_lt_le.
    - now apply float_le_refl. }
  assert (Hmb : float_le (py_min a b) b = true).
  { unfold py_min. destruct (float_lt b a) eqn:E.
    - now apply float_le_refl.
    - now apply float_not_lt_le. }
  assert (Hmin : py_min a b = inf \/ In (py_min a b) (xs ++ ys)).
  { unfold py_min. destruct (float_lt b a).
    - destruct Hbin as [Hbin|Hbin]; [now left|right; apply in_or_app; now right].
    - destruct Hain as [Hain|Hain]; [now left|right; apply in_or_app; now left]. }
  apply float_le_antisym.
  - destruct Hcin as [->|Hcin].
    + apply (float_le_trans _ a); assumption.
    + apply (Permutation_in _ Hperm) in Hcin. apply in_app_or in Hcin.
      destruct Hcin as [Hin|Hin].
      * eapply float_le_trans; [exact Hma|now apply Haall].
      * eapply float_le_trans; [exact Hmb|now apply Hball].
  - destruct Hmin as [->|Hmin]; [exact Hctop|].
    apply Hcall. apply (Permutation_in _ (Permutation_sym Hperm)). exact Hmin.
Qed.

Lemma merged_max_eq (xs ys zs : list float) :
  Forall (fun v => is_nan v = false) xs -> Forall (fun v => is_nan v = false) ys ->
  Permutation zs (xs ++ ys) ->
  float_eq (py_max (fold_left py_max xs neg_inf) (fold_left py_max ys neg_inf))
           (fold_left py_max zs neg_inf) = true.
Proof.
  intros Hxs Hys Hperm.
  assert (Hzs : Forall (fun v => is_nan v = false) zs).
  { apply Forall_forall. intros v Hv.
    apply (Permutation_in _ Hperm) in Hv. apply in_app_or in Hv.
    rewrite Forall_forall in Hxs, Hys. destruct Hv; auto. }
  destruct (fold_py_max_spec xs neg_inf eq_refl Hxs) as (Ha & Hain & Hatop & Haall).
  destruct (fold_py_max_spec ys neg_inf eq_refl Hys) as (Hb & Hbin & Hbtop & Hball).
  destruct (fold_py_max_spec zs neg_inf eq_refl Hzs) as (Hc & Hcin & Hctop & Hcall).
  set (a := fold_left py_max xs neg_inf) in *.
  set (b := fold_left py_max ys neg_inf) in *.
  set (c := fold_left py_max zs neg_inf) in *.
  assert (Hma : float_le a (py_max a b) = true).
  { unfold py_max. destruct (float_lt a b) eqn:E.
    - now apply float_lt_le.
    - now apply float_le_refl. }
  assert (Hmb : float_le b (py_max a b) = true).
  { unfold py_max. destruct (float_lt a b) eqn:E.
    - now apply float_le_refl.
    - now apply float_not_lt_le. }
  assert (Hmin : py_max a b = neg_inf \/ In (py_max a b) (xs ++ ys)).
  { unfold py_max. destruct (float_lt a b).
    - destruct Hbin as [Hbin|Hbin]; [now left|right; apply in_or_app; now right].
    - destruct Hain as [Hain|Hain]; [now left|right; apply in_or_app; now left]. }
  apply float_le_antisym.
  - destruct Hmin as [->|Hmin]; [exact Hctop|].
    apply Hcall. apply (Permutation_in _ (Permutation_sym Hperm)). exact Hmin.
  - destruct Hcin as [->|Hcin].
    + apply (float_le_trans _ a); assumption.
    + apply (Permutation_in _ Hperm) in Hcin. apply in_app_or in Hcin.
      destruct Hcin as [Hin|Hin].
      * eapply float_le_trans; [now apply Haall|exact Hma].
      * eapply float_le_trans; [now apply Hball|exact Hmb].
Qed.

(** A NaN among the values is passed over by the running minimum and
    maximum. *)
Lemma fold_py_min_filter (vs : list float) (a : float) :
  fold_left py_min vs a
  = fold_left py_min (filter (fun v => negb (is_nan v)) vs) a.
Proof.
  revert a. induction vs as [|x vs IH]; intro a; simpl; [reflexivity|].
  destruct x as [s|s| |s m e]; simpl; apply IH.
Qed.

Lemma fold_py_max_filter (vs : list float) (a : float) :
  fold_left py_max vs a
  = fold_left py_max (filter (fun v => negb (is_nan v)) vs) a.
Proof.
  revert a. induction vs as [|x vs IH]; intro a; simpl; [reflexivity|].
  destruct x as [s|s| |s m e]; simpl; try apply IH.
  fold nan. rewrite (py_max_nan a). apply IH.
Qed.

Lemma filter_not_nan (vs : list float) :
  Forall (fun v => is_nan v = false) (filter (fun v => negb (is_nan v)) vs).
Proof.
  apply Forall_forall. intros v Hv. apply filter_In in Hv as [_ Hv].
  now apply negb_true_iff in Hv.
Qed.

(** Dropping the NaNs keeps two sequences rearrangements of each other. *)
Lemma not_nan_values_perm (vs ws : list float) :
  Permutation vs ws ->
  Permutation (filter (fun v => negb (is_nan v)) vs)
              (filter (fun v => negb (is_nan v)) ws).
Proof.
  intro Hperm. induction Hperm as [|x vs ws _ IH|x y vs|us vs ws _ IH1 _ IH2].
  - apply perm_nil.
  - simpl. destruct (is_nan x); simpl; [exact IH|now apply perm_skip].
  - simpl. destruct (is_nan x), (is_nan y); simpl;
      first [apply Permutation_refl | apply perm_swap].
  - exact (perm_trans IH1 IH2).
Qed.

Lemma merged_min_eq_any (xs ys zs : list float) :
  Permutation zs (xs ++ ys) ->
  float_eq (py_min (fold_left py_min xs inf) (fold_left py_min ys inf))
           (fold_left py_min zs inf) = true.
Proof.
  intro Hperm.
  rewrite (fold_py_min_filter xs), (fold_py_min_filter ys), (fold_py_min_filter zs).
  apply merged_min_eq; try apply filter_not_nan.
  rewrite <- filter_app. now apply not_nan_values_perm.
Qed.

Lemma merged_max_eq_any (xs ys zs : list float) :
  Permutation zs (xs ++ ys) ->
  float_eq (py_max (fold_left py_max xs neg_inf) (fold_left py_max ys neg_inf))
           (fold_left py_max zs neg_inf) = true.
Proof.
  intro Hperm.
  rewrite (fold_py_max_filter xs), (fold_py_max_filter ys), (fold_py_max_filter zs).
  apply merged_max_eq; try apply filter_not_nan.
  rewrite <- filter_app. now apply not_nan_values_perm.
Qed.

(** C6, as stated, fails: the sum is a floating-point sum, which depends on
    how the values are grouped.  The values 0.1, 0.2, 0.3 ingested in this
    order sum to 0.6000000000000001, while the merge of the states of [0.1] and
    of [0.2, 0.3] holds 0.1 + 0.5 = 0.6. *)
Lemma merge_claim_fails_on_sum :
  ~ (forall (k : str) (xs ys zs : list float),
       Permutation zs (xs ++ ys) ->
       AggregateState_eqb (merge_spec (build k xs) (build k ys)) (build k zs) = true).
Proof.
  intro H.
  specialize (H (lit "A") [decimal_to_float false 1 (-1)]
    [decimal_to_float false 2 (-1); decimal_to_float false 3 (-1)]
    [decimal_to_float false 1 (-1); decimal_to_float false 2 (-1);
     decimal_to_float false 3 (-1)] (Permutation_refl _)).
  vm_compute in H. discriminate H.
Qed.

(** C6, amended.  For every station and every way of dividing a sequence of
    values into two subsequences, the merge of the two states built from the
    subsequences has the count of the state built from the whole sequence
    ingested in any order, and a minimum and a maximum equal ([==]) to its
    minimum and maximum.  (Nothing is said of the sum.) *)
Theorem merge_agrees_on_count_min_max (k : str) (xs ys zs : list float) :
  Permutation zs (xs ++ ys) ->
  agg_count (merge_spec (build k xs) (build k ys)) = agg_count (build k zs) /\
  float_eq (agg_min (merge_spec (build k xs) (build k ys))) (agg_min (build k zs)) = true /\
  float_eq (agg_max (merge_spec (build k xs) (build k ys))) (agg_max (build k zs)) = true.
Proof.
  intro Hperm. rewrite !build_eq. simpl. repeat split.
  - rewrite (Permutation_length Hperm), length_app. lia.
  - now apply merged_min_eq_any.
  - now apply merged_max_eq_any.
Qed.

Lemma merge_agrees_on_count_min_max_witness :
  let x := decimal_to_float false 1 (-1) in
  let y := decimal_to_float false 2 (-1) in
  let z := decimal_to_float false 3 (-1) in
  agg_count (merge_spec (build (lit "A") [x]) (build (lit "A") [y; z]))
  = agg_count (build (lit "A") [z; x; y]) /\
  float_eq (agg_min (merge_spec (build (lit "A") [x]) (build (lit "A") [y; z])))
           (agg_min (build (lit "A") [z; x; y])) = true /\
  float_eq (agg_max (merge_spec (build (lit "A") [x]) (build (lit "A") [y; z])))
           (agg_max (build (lit "A") [z; x; y])) = true.
Proof.
  apply merge_agrees_on_count_min_max.
  apply Permutation_cons_append.
Defined.

(** ** Scenario 1 *)

(** C1.  The lines [A;10.0], [A;20.0], [B;-5.5] leave the tables with, for A,
    count 2, minimum 10 (= 10 * 2^49 * 2^-49), maximum 20, sum 30 and, for B,
    count 1 and minimum, maximum and sum -5.5 (= -(11 * 2^49) * 2^-50); the
    lines printed are [A: 10.0/15.0/20.0] and [B: -5.5/-5.5/-5.5], in this
    order. *)
Theorem scenario_1 {db : UnicodeDB} :
  load [lit "A;10.0" ++ LF; lit "A;20.0" ++ LF; lit "B;-5.5" ++ LF]
  = ({| minimas := [(lit "A", S754_finite false (10 * 2 ^ 49) (-49));
                    (lit "B", S754_finite true (11 * 2 ^ 49) (-50))];
        maximas := [(lit "A", S754_finite false (20 * 2 ^ 48) (-48));
                    (lit "B", S754_finite true (11 * 2 ^ 49) (-50))];
        somas := [(lit "A", S754_finite false (30 * 2 ^ 48) (-48));
                  (lit "B", S754_finite true (11 * 2 ^ 49) (-50))];
        medicoes := [(lit "A", 2); (lit "B", 1)] |}, Ok tt)
  /\ main [lit "A;10.0" ++ LF; lit "A;20.0" ++ LF; lit "B;-5.5" ++ LF]
     = Ok [lit "A: 10.0/15.0/20.0"; lit "B: -5.5/-5.5/-5.5"].
Proof. split; vm_compute; reflexivity. Qed.

(** ** The reader on a plain line *)

Lemma feed_chars_app (self : ReaderObj) (a b : str) :
  feed_chars self (a ++ b)
  = match feed_chars self a with
    | Ok self' => feed_chars self' b
    | Raise e => Raise e
    end.
Proof.
  revert self. induction a as [|c a IH]; intro self; simpl; [reflexivity|].
  destruct (parse_process_char self (Ch c)); [apply IH|reflexivity].
Qed.

Lemma parse_add_char_ok (self : ReaderObj) (c : char) :
  Z.of_nat (List.length (field self)) < field_limit ->
  parse_add_char self c
  = Ok {| fields := fields self; state := state self; field := field self ++ [c] |}.
Proof.
  intro H. unfold parse_add_char.
  destruct (field_limit <=? Z.of_nat (List.length (field self))) eqn:E;
    [apply Z.leb_le in E; lia|reflexivity].
Qed.

(** Between two fields or inside an unquoted one, the reader cuts a plain text
    at its delimiters. *)
Lemma feed_chars_plain (s : str) (self : ReaderObj) :
  plain s -> unquoted self ->
  Z.of_nat (List.length (field self) + List.length s) <= field_limit ->
  exists self',
    feed_chars self s = Ok self' /\ unquoted self' /\
    fields self' ++ [field self'] = split_fields (fields self) (field self) s.
Proof.
  revert self. induction s as [|c s IH]; intros self Hplain Hun Hlen.
  - exists self. simpl. auto.
  - inversion Hplain as [|? ? [Hq Hnl] Hplain']; subst.
    apply Z.eqb_neq in Hq.
    simpl List.length in Hlen.
    assert (Hadd : Z.of_nat (List.length (field self)) < field_limit) by lia.
    simpl feed_chars. simpl split_fields.
    destruct (c =? delimiter) eqn:Hd.
    + (* the delimiter closes the field *)
      assert (Hstep : exists self1,
                 parse_process_char self (Ch c) = Ok self1 /\
                 state self1 = START_FIELD /\ field self1 = [] /\
                 fields self1 = fields self ++ [field self]).
      { destruct Hun as [Hst|[Hst Hf]]; unfold parse_process_char; rewrite Hst.
        - rewrite Hnl, Hd. eexists. split; [reflexivity|]. simpl. auto.
        - unfold start_field. rewrite Hnl, Hq, Hd.
          eexists. split; [reflexivity|]. simpl. auto. }
      destruct Hstep as (self1 & -> & Hst1 & Hf1 & Hfs1).
      destruct (IH self1 Hplain') as (self' & Hfeed & Hun' & Hsplit).
      * right. auto.
      * rewrite Hf1. simpl. lia.
      * exists self'. rewrite Hfeed, Hsplit, Hf1, Hfs1. auto.
    + (* any other character joins the field *)
      assert (Hstep : exists self1,
                 parse_process_char self (Ch c) = Ok self1 /\
                 state self1 = IN_FIELD /\ field self1 = field self ++ [c] /\
                 fields self1 = fields self).
      { destruct Hun as [Hst|[Hst Hf]]; unfold parse_process_char; rewrite Hst.
        - rewrite Hnl, Hd, (parse_add_char_ok self c Hadd).
          eexists. split; [reflexivity|]. simpl. auto.
        - unfold start_field. rewrite Hnl, Hq, Hd, (parse_add_char_ok self c Hadd).
          eexists. split; [reflexivity|]. simpl. auto. }
      destruct Hstep as (self1 & -> & Hst1 & Hf1 & Hfs1).
      destruct (IH self1 Hplain') as (self' & Hfeed & Hun' & Hsplit).
      * left. exact Hst1.
      * rewrite Hf1, length_app. simpl. lia.
      * exists self'. rewrite Hfeed, Hsplit, Hf1, Hfs1. auto.
Qed.

(** Carriage returns and line feeds after a record are eaten. *)
Lemma feed_chars_eat (s : str) (self : ReaderObj) :
  terminator s -> state self = EAT_CRNL -> feed_chars self s = Ok self.
Proof.
  induction s as [|c s IH]; intros Ht Hst; [reflexivity|].
  inversion Ht as [|? ? Hnl Ht']; subst. simpl.
  unfold parse_process_char. rewrite Hst, Hnl. now apply IH.
Qed.

(** The line terminator closes the record. *)
Lemma feed_terminator (term : str) (self : ReaderObj) :
  terminator term -> unquoted self ->
  match feed_chars self term with
  | Ok self' => parse_process_char self' EOL
  | Raise e => Raise e
  end = Ok {| fields := fields self ++ [field self]; state := START_RECORD; field := [] |}.
Proof.
  intros Ht Hun. destruct term as [|c term].
  - simpl. destruct Hun as [Hst|[Hst Hf]]; unfold parse_process_char; rewrite Hst;
      reflexivity.
  - inversion Ht as [|? ? Hnl Ht']; subst. simpl.
    assert (Hstep : parse_process_char self (Ch c)
                    = Ok (set_state EAT_CRNL (parse_save_field self))).
    { destruct Hun as [Hst|[Hst Hf]]; unfold parse_process_char; rewrite Hst.
      - now rewrite Hnl.
      - unfold start_field. now rewrite Hnl. }
    rewrite Hstep,
      (feed_chars_eat term (set_state EAT_CRNL (parse_save_field self)) Ht' eq_refl).
    reflexivity.
Qed.

Lemma feed_terminator_empty (term : str) :
  terminator term ->
  match feed_chars parse_reset term with
  | Ok self' => parse_process_char self' EOL
  | Raise e => Raise e
  end = Ok parse_reset.
Proof.
  intro Ht. destruct term as [|c term]; [reflexivity|].
  inversion Ht as [|? ? Hnl Ht']; subst. simpl.
  unfold parse_process_char at 1. simpl. rewrite Hnl.
  rewrite (feed_chars_eat term (set_state EAT_CRNL parse_reset) Ht' eq_refl).
  reflexivity.
Qed.

(** The row the reader makes of a plain text. *)
Lemma feed_line_plain (body term : str) :
  plain body -> terminator term ->
  Z.of_nat (List.length body) <= field_limit ->
  exists self,
    feed_line parse_reset (body ++ term) = Ok self /\
    state self = START_RECORD /\ field self = [] /\
    fields self = match body with [] => [] | _ => split_fields [] [] body end.
Proof.
  intros Hplain Ht Hlen. unfold feed_line.
  destruct body as [|c body].
  - rewrite app_nil_l, (feed_terminator_empty term Ht).
    exists parse_reset. auto.
  - rewrite feed_chars_app.
    assert (Hstart : feed_chars parse_reset (c :: body)
                     = feed_chars (set_state START_FIELD parse_reset) (c :: body)).
    { inversion Hplain as [|? ? [Hq Hnl] _]; subst.
      simpl. unfold parse_process_char. simpl. now rewrite Hnl. }
    rewrite Hstart.
    destruct (feed_chars_plain (c :: body) (set_state START_FIELD parse_reset) Hplain)
      as (self' & -> & Hun & Hsplit).
    + right. auto.
    + exact Hlen.
    + rewrite (feed_terminator term self' Ht Hun).
      eexists. split; [reflexivity|]. simpl. auto.
Qed.

Lemma reader_plain_line (body term : str) :
  plain body -> terminator term ->
  Z.of_nat (List.length body) <= field_limit ->
  reader [body ++ term]
  = [Ok match body with [] => [] | _ => split_fields [] [] body end].
Proof.
  intros Hplain Ht Hlen.
  destruct (feed_line_plain body term Hplain Ht Hlen) as (self & Hfeed & Hst & _ & Hfs).
  unfold reader. simpl. rewrite Hfeed, Hst. simpl. now rewrite Hfs.
Qed.

Lemma split_fields_prefix (s : str) (fs : list str) (f : str) :
  split_fields fs f s = fs ++ split_fields [] f s.
Proof.
  revert fs f. induction s as [|c s IH]; intros fs f; simpl; [reflexivity|].
  destruct (c =? delimiter).
  - rewrite (IH (fs ++ [f])), (IH [f]). now rewrite <- app_assoc.
  - apply IH.
Qed.

Lemma split_fields_cut (s : str) (f : str) :
  split_fields [] f s
  = (f ++ before_delim s)
    :: match after_delim s with
       | None => []
       | Some r => split_fields [] [] r
       end.
Proof.
  revert f. induction s as [|c s IH]; intro f; simpl.
  - now rewrite app_nil_r.
  - destruct (c =? delimiter).
    + rewrite split_fields_prefix, app_nil_r. reflexivity.
    + rewrite IH, <- app_assoc. reflexivity.
Qed.

Lemma float_of_str_raises {db : UnicodeDB} (s : str) (e : exn) :
  float_of_str s = Raise e -> e = ValueError.
Proof.
  unfold float_of_str, float_from_string_inner.
  destruct (lstrip _); [congruence|].
  destruct (_Py_string_to_number_with_underscores _); [|congruence].
  destruct (_PyOS_ascii_strtod _) as [[x [|c' r']]|]; congruence.
Qed.

(** What the parse step makes of a plain line: the first field is the station,
    the second one the reading, later fields are not looked at. *)
Lemma parse_line_plain {db : UnicodeDB} (body term : str) :
  plain body -> terminator term ->
  Z.of_nat (List.length body) <= field_limit ->
  parse_line (body ++ term)
  = match after_delim body with
    | None => Raise IndexError
    | Some r =>
        match float_of_str (before_delim r) with
        | Ok v => Ok (before_delim body, v)
        | Raise e => Raise e
        end
    end.
Proof.
  intros Hplain Ht Hlen. unfold parse_line.
  rewrite (reader_plain_line body term Hplain Ht Hlen).
  destruct body as [|c body]; [reflexivity|].
  rewrite split_fields_cut. unfold parse_row.
  generalize (c :: body). intro b.
  destruct (after_delim b) as [r|]; [|reflexivity].
  rewrite split_fields_cut. unfold getitem. cbn [nth_error app].
  destruct (float_of_str (before_delim r)); reflexivity.
Qed.

Lemma for_rows_plain_line {db : UnicodeDB} (body term : str) (t : tables) :
  plain body -> terminator term ->
  Z.of_nat (List.length body) <= field_limit ->
  for_rows (reader [body ++ term]) t
  = match parse_line (body ++ term) with
    | Ok (k, v) => (ingest k v t, Ok tt)
    | Raise e => (t, Raise e)
    end.
Proof.
  intros Hplain Ht Hlen. unfold parse_line.
  rewrite (reader_plain_line body term Hplain Ht Hlen). simpl. unfold process_row.
  destruct (parse_row _) as [[k v]|e]; reflexivity.
Qed.

Lemma plain_app (a b : str) : plain a -> plain b -> plain (a ++ b).
Proof. intros Ha Hb. apply Forall_app. now split. Qed.

Lemma before_delim_app (key rest : str) :
  ~ In delimiter key -> before_delim (key ++ delimiter :: rest) = key.
Proof.
  induction key as [|c key IH]; intro Hn; simpl.
  - reflexivity.
  - destruct (c =? delimiter) eqn:E.
    + apply Z.eqb_eq in E. exfalso. apply Hn. now left.
    + f_equal. apply IH. intro. apply Hn. now right.
Qed.

Lemma before_delim_none (key : str) : ~ In delimiter key -> before_delim key = key.
Proof.
  induction key as [|c key IH]; intro Hn; simpl; [reflexivity|].
  destruct (c =? delimiter) eqn:E.
  - apply Z.eqb_eq in E. exfalso. apply Hn. now left.
  - f_equal. apply IH. intro. apply Hn. now right.
Qed.

Lemma after_delim_app (key rest : str) :
  ~ In delimiter key -> after_delim (key ++ delimiter :: rest) = Some rest.
Proof.
  induction key as [|c key IH]; intro Hn; simpl.
  - reflexivity.
  - destruct (c =? delimiter) eqn:E.
    + apply Z.eqb_eq in E. exfalso. apply Hn. now left.
    + apply IH. intro. apply Hn. now right.
Qed.

(** A line [key;value] or [key;value;...]. *)
Lemma parse_line_key_value {db : UnicodeDB} (key value more term : str) :
  plain key -> plain value -> plain more ->
  ~ In delimiter key -> ~ In delimiter value ->
  more = [] \/ (exists more', more = delimiter :: more') ->
  terminator term ->
  Z.of_nat (List.length (key ++ [delimiter] ++ value ++ more)) <= field_limit ->
  parse_line ((key ++ [delimiter] ++ value ++ more) ++ term)
  = match float_of_str value with
    | Ok v => Ok (key, v)
    | Raise e => Raise e
    end.
Proof.
  intros Hk Hv Hm Hnk Hnv Hmore Ht Hlen.
  rewrite parse_line_plain; trivial.
  - simpl app. rewrite after_delim_app by exact Hnk.
    assert (Hb : before_delim (value ++ more) = value).
    { destruct Hmore as [->|[more' ->]].
      - rewrite app_nil_r. now apply before_delim_none.
      - now apply before_delim_app. }
    rewrite Hb, before_delim_app by exact Hnk. reflexivity.
  - apply plain_app; [exact Hk|].
    apply plain_app; [|now apply plain_app].
    repeat constructor. discriminate.
Qed.

Ltac solve_plain :=
  repeat (constructor; [split; [discriminate|reflexivity]|]); constructor.

Ltac solve_no_delim :=
  let H := fresh "H" in
  simpl; intro H; repeat (destruct H as [H|H]; [discriminate H|]); exact H.

Lemma nan_literal_spec (v : str) :
  In v nan_literals ->
  plain v /\ ~ In delimiter v /\ (List.length v <= 4)%nat /\
  forall db : UnicodeDB, float_of_str v = Ok nan.
Proof.
  unfold nan_literals. simpl.
  intro H.
  repeat (destruct H as [<-|H];
          [split; [solve_plain|split; [solve_no_delim|split; [simpl; lia|]]];
           intro db; reflexivity|]).
  destruct H.
Qed.

(** ** The parse step *)

(** C3, as stated, fails: a line with an empty key parses, to a record whose
    station is the empty string. *)
Lemma parse_claim_fails_on_empty_key :
  before_delim (lit ";1.0") = [] /\
  forall db : UnicodeDB,
    parse_line (lit ";1.0" ++ LF) = Ok ([], S754_finite false (2 ^ 52) (-52)).
Proof. split; [reflexivity|]. intro db. reflexivity. Qed.

(** C3, amended.  For a line without quote characters, within the field size
    the reader allows, the parse step fails exactly when the delimiter is
    absent or [float] rejects the text between the first delimiter and the
    next one (or the end of the line); in all other cases, an empty key
    included, it returns the record made of the text before the first
    delimiter and of the value of that text. *)
Theorem parse_fails_iff {db : UnicodeDB} (body term : str) :
  plain body -> terminator term ->
  Z.of_nat (List.length body) <= field_limit ->
  ((exists e, parse_line (body ++ term) = Raise e) <->
   (after_delim body = None \/
    exists r, after_delim body = Some r /\
              float_of_str (before_delim r) = Raise ValueError)) /\
  (forall r v, after_delim body = Some r ->
               float_of_str (before_delim r) = Ok v ->
               parse_line (body ++ term) = Ok (before_delim body, v)).
Proof.
  intros Hplain Ht Hlen. rewrite (parse_line_plain body term Hplain Ht Hlen).
  split; [split|].
  - intros [e He]. destruct (after_delim body) as [r|]; [right|now left].
    exists r. split; [reflexivity|].
    destruct (float_of_str (before_delim r)) as [v|e'] eqn:E; [discriminate|].
    now rewrite (float_of_str_raises _ _ E).
  - intros [->|[r [-> ->]]]; eexists; reflexivity.
  - intros r v -> ->. reflexivity.
Qed.

Lemma parse_fails_iff_witness :
  ((exists e, @parse_line ascii_db (lit ";1.0" ++ LF) = Raise e) <->
   (after_delim (lit ";1.0") = None \/
    exists r, after_delim (lit ";1.0") = Some r /\
              @float_of_str ascii_db (before_delim r) = Raise ValueError)) /\
  (forall r v, after_delim (lit ";1.0") = Some r ->
               @float_of_str ascii_db (before_delim r) = Ok v ->
               @parse_line ascii_db (lit ";1.0" ++ LF) = Ok (before_delim (lit ";1.0"), v)).
Proof.
  apply (@parse_fails_iff ascii_db (lit ";1.0") LF).
  - solve_plain.
  - repeat constructor.
  - unfold field_limit. simpl. lia.
Defined.

(** C4, as stated, fails: the line [A;1.0;2.0] is cut at both delimiters; the
    text after the first one, [1.0;2.0], is no float literal, and yet the line
    is ingested, with the reading 1.0. *)
Lemma remainder_claim_fails_on_third_field :
  after_delim (lit "A;1.0;2.0") = Some (lit "1.0;2.0") /\
  forall db : UnicodeDB,
    float_of_str (lit "1.0;2.0") = Raise ValueError /\
    load [lit "A;1.0;2.0" ++ LF]
    = (ingest (lit "A") (S754_finite false (2 ^ 52) (-52)) empty_tables, Ok tt).
Proof. split; [reflexivity|]. intro db. split; reflexivity. Qed.

(** C4, amended.  For a line without quote characters, within the field size
    the reader allows, parsing cuts at every delimiter: the text before the
    first delimiter is the key, the text between the first delimiter and the
    next one (or the end of the line, the line terminator left out) is the
    numeric reading, and what follows a second delimiter is not looked at; so
    a line such as [A;1.0;2.0] gives the record of [A] and 1.0. *)
Theorem parse_reads_first_two_fields {db : UnicodeDB} (key value more term : str) :
  plain key -> plain value -> plain more ->
  ~ In delimiter key -> ~ In delimiter value ->
  more = [] \/ (exists more', more = delimiter :: more') ->
  terminator term ->
  Z.of_nat (List.length (key ++ [delimiter] ++ value ++ more)) <= field_limit ->
  parse_line ((key ++ [delimiter] ++ value ++ more) ++ term)
  = match float_of_str value with
    | Ok v => Ok (key, v)
    | Raise e => Raise e
    end.
Proof. apply parse_line_key_value. Qed.

Lemma parse_reads_first_two_fields_witness :
  @parse_line ascii_db ((lit "A" ++ [delimiter] ++ lit "1.0" ++ lit ";2.0") ++ LF)
  = match @float_of_str ascii_db (lit "1.0") with
    | Ok v => Ok (lit "A", v)
    | Raise e => Raise e
    end.
Proof.
  apply (@parse_reads_first_two_fields ascii_db (lit "A") (lit "1.0") (lit ";2.0") LF).
  - solve_plain.
  - solve_plain.
  - solve_plain.
  - solve_no_delim.
  - solve_no_delim.
  - right. eexists. reflexivity.
  - repeat constructor.
  - unfold field_limit. simpl. lia.
Defined.

(** ** NaN readings *)

Lemma float_add_nan (x : float) : float_add x nan = nan.
Proof. now destruct x. Qed.

(** C7, as stated, fails: [float] accepts the literal [nan], and the line
    [A;nan] goes through the update of the tables. *)
Lemma nan_line_is_ingested :
  In (lit "nan") nan_literals /\
  forall db : UnicodeDB,
    load [lit "A;nan" ++ LF] = (ingest (lit "A") nan empty_tables, Ok tt).
Proof.
  split.
  - unfold nan_literals. simpl. now left.
  - intro db. reflexivity.
Qed.

(** C7, amended.  A line whose value field spells a NaN (an optional sign and
    the letters n, a, n in either case) parses, to a record whose value is NaN,
    and the record is passed to the update of the tables: the count of the
    station goes up by one, its minimum and maximum stay as they were, and its
    sum becomes NaN. *)
Theorem nan_reading_reaches_the_tables {db : UnicodeDB}
    (key v term : str) (t : tables) :
  plain key -> ~ In delimiter key -> In v nan_literals -> terminator term ->
  Z.of_nat (List.length key) + 5 <= field_limit ->
  for_rows (reader [(key ++ [delimiter] ++ v) ++ term]) t = (ingest key nan t, Ok tt) /\
  count_of key (ingest key nan t) = count_of key t + 1 /\
  min_of key (ingest key nan t) = min_of key t /\
  max_of key (ingest key nan t) = max_of key t /\
  sum_of key (ingest key nan t) = nan.
Proof.
  intros Hk Hnk Hv Ht Hlen.
  destruct (nan_literal_spec v Hv) as (Hpv & Hnv & Hlv & Hfloat).
  split; [|split; [|split; [|split]]].
  - rewrite for_rows_plain_line; trivial.
    + pose proof (parse_line_key_value key v [] term Hk Hpv) as Hp.
      rewrite app_nil_r in Hp. rewrite Hp; trivial.
      * now rewrite Hfloat.
      * constructor.
      * now left.
      * rewrite !length_app. simpl. lia.
    + apply plain_app; [exact Hk|]. apply plain_app; [|exact Hpv].
      repeat constructor. discriminate.
    + rewrite !length_app. simpl. lia.
  - apply count_of_ingest_same.
  - now rewrite min_of_ingest_same, py_min_nan.
  - now rewrite max_of_ingest_same, py_max_nan.
  - now rewrite sum_of_ingest_same, float_add_nan.
Qed.

Lemma nan_reading_reaches_the_tables_witness :
  let t := ingest (lit "A") (decimal_to_float false 100 (-1)) empty_tables in
  @for_rows ascii_db (reader [(lit "A" ++ [delimiter] ++ lit "-NaN") ++ LF]) t
  = (ingest (lit "A") nan t, Ok tt) /\
  count_of (lit "A") (ingest (lit "A") nan t) = count_of (lit "A") t + 1 /\
  min_of (lit "A") (ingest (lit "A") nan t) = min_of (lit "A") t /\
  max_of (lit "A") (ingest (lit "A") nan t) = max_of (lit "A") t /\
  sum_of (lit "A") (ingest (lit "A") nan t) = nan.
Proof.
  apply (@nan_reading_reaches_the_tables ascii_db (lit "A") (lit "-NaN") LF).
  - solve_plain.
  - solve_no_delim.
  - unfold nan_literals. simpl. tauto.
  - repeat constructor.
  - unfold field_limit. simpl. lia.
Defined.

(** ** A malformed line *)

Lemma Reader_iternext_whole (good rest : list str) :
  Forall whole_record good ->
  Reader_iternext parse_reset (good ++ rest)
  = Reader_iternext parse_reset good ++ Reader_iternext parse_reset rest.
Proof.
  induction 1 as [|line good [self [Hfeed Hst]] _ IH]; [reflexivity|].
  simpl. rewrite Hfeed, Hst. simpl. now rewrite IH.
Qed.

Lemma for_rows_app {db : UnicodeDB} (rows1 rows2 : list (result (list str)))
    (t0 t : tables) :
  for_rows rows1 t0 = (t, Ok tt) ->
  for_rows (rows1 ++ rows2) t0 = for_rows rows2 t.
Proof.
  revert t0. induction rows1 as [|[row|e] rows1 IH]; intros t0 H; simpl in *.
  - now injection H as ->.
  - destruct (process_row row t0) as [t1 [[]|e]]; [now apply IH|discriminate].
  - discriminate.
Qed.

(** At the end of a line the reader is between two records or inside a quoted
    field. *)
Lemma feed_line_state (self self' : ReaderObj) (line : str) :
  feed_line self line = Ok self' ->
  state self' = START_RECORD \/ state self' = IN_QUOTED_FIELD.
Proof.
  unfold feed_line. destruct (feed_chars self line) as [s|]; [|discriminate].
  unfold parse_process_char. destruct (state s) eqn:E; simpl;
    intro H; injection H as <-; simpl; auto.
Qed.

(** A line read on its own gives one row, or one error. *)
Lemma reader_single (line : str) : exists r, reader [line] = [r].
Proof.
  unfold reader. simpl. destruct (feed_line parse_reset line) as [self|e] eqn:E.
  - destruct (feed_line_state _ _ _ E) as [Hst|Hst]; rewrite Hst; simpl.
    + eexists. reflexivity.
    + rewrite orb_true_r. eexists. reflexivity.
  - eexists. reflexivity.
Qed.

Lemma for_rows_malformed {db : UnicodeDB} (bad : str) (t : tables) (e : exn) :
  parse_line bad = Raise e -> for_rows (reader [bad]) t = (t, Raise e).
Proof.
  unfold parse_line. destruct (reader_single bad) as [[row|e'] ->]; simpl.
  - unfold process_row. intros ->. reflexivity.
  - now intros [= ->].
Qed.

(** C8, as stated, fails for the lines that the specification calls malformed
    and the code accepts: after the line [A;10.0], neither the line [;1.0]
    (empty key) nor the line [A;nan] raises anything, and each of them changes
    the tables. *)
Lemma malformed_claim_fails_on_accepted_lines :
  let good := [lit "A;10.0" ++ LF] in
  let t := fst (@load ascii_db good) in
  (@malformed_by_spec ascii_db (lit ";1.0") /\
   @load ascii_db (good ++ [lit ";1.0" ++ LF])
   = (ingest [] (decimal_to_float false 10 (-1)) t, Ok tt) /\
   count_of [] t = 0 /\
   count_of [] (ingest [] (decimal_to_float false 10 (-1)) t) = 1) /\
  (@malformed_by_spec ascii_db (lit "A;nan") /\
   @load ascii_db (good ++ [lit "A;nan" ++ LF]) = (ingest (lit "A") nan t, Ok tt) /\
   count_of (lit "A") t = 1 /\
   count_of (lit "A") (ingest (lit "A") nan t) = 2 /\
   sum_of (lit "A") t = decimal_to_float false 100 (-1) /\
   sum_of (lit "A") (ingest (lit "A") nan t) = nan).
Proof.
  intros good t. split.
  - split; [unfold malformed_by_spec; simpl after_delim; left; reflexivity|].
    repeat split; reflexivity.
  - split; [unfold malformed_by_spec; simpl after_delim; right; vm_compute; reflexivity|].
    repeat split; reflexivity.
Qed.

(** C8, amended.  When a line on which the parse step raises an exception, such
    as the line [X], which has no delimiter, comes after any sequence of
    well-formed lines, that exception is raised and the tables are the ones the
    well-formed lines left: no count, minimum, maximum or sum is touched. *)
Theorem malformed_line_leaves_tables {db : UnicodeDB}
    (good : list str) (bad : str) (t : tables) (e : exn) :
  Forall whole_record good ->
  load good = (t, Ok tt) ->
  parse_line bad = Raise e ->
  load (good ++ [bad]) = (t, Raise e).
Proof.
  intros Hgood Hload Hbad. unfold load, reader in *.
  rewrite (Reader_iternext_whole good [bad] Hgood).
  rewrite (for_rows_app _ _ _ _ Hload).
  now apply for_rows_malformed.
Qed.

Lemma malformed_line_leaves_tables_witness :
  @load ascii_db ([lit "A;10.0" ++ LF; lit "B;-5.5" ++ LF] ++ [lit "X" ++ LF])
  = (fst (@load ascii_db [lit "A;10.0" ++ LF; lit "B;-5.5" ++ LF]), Raise IndexError).
Proof.
  apply (@malformed_line_leaves_tables ascii_db).
  - repeat constructor; eexists; (split; [reflexivity|reflexivity]).
  - reflexivity.
  - reflexivity.
Defined.

(** ** The snapshot

    [float(n)] of a count from 1 to below 2^1023 is a finite float other than
    zero. *)

Lemma digits2_pos_bound (p : positive) (n : Z) :
  0 <= n -> Zpos p < 2 ^ n -> Zpos (digits2_pos p) <= n.
Proof.
  revert n. induction p as [p IH|p IH|]; intros n Hn Hlt; simpl digits2_pos.
  - assert (n <> 0) by (intros ->; simpl in Hlt; lia).
    replace n with (Z.succ (n - 1)) in Hlt by lia.
    rewrite Z.pow_succ_r in Hlt by lia.
    specialize (IH (n - 1)). lia.
  - assert (n <> 0) by (intros ->; simpl in Hlt; lia).
    replace n with (Z.succ (n - 1)) in Hlt by lia.
    rewrite Z.pow_succ_r in Hlt by lia.
    specialize (IH (n - 1)). lia.
  - assert (n <> 0) by (intros ->; simpl in Hlt; lia). lia.
Qed.

Lemma digits2_pos_iter_xO (p k : positive) :
  digits2_pos (Pos.iter xO p k) = (digits2_pos p + k)%positive.
Proof.
  induction k as [|k IH] using Pos.peano_ind.
  - simpl. lia.
  - rewrite Pos.iter_succ. simpl. rewrite IH. lia.
Qed.

Lemma binary_round_aux_normal (m : positive) (e : Z) :
  Zpos (digits2_pos m) = 53 -> -1074 <= e <= 971 ->
  binary_round_aux prec emax false (Zpos m) e loc_Exact = S754_finite false m e.
Proof.
  intros Hd He. unfold binary_round_aux, shr_fexp, fexp, emin, prec, emax.
  cbn [Zdigits2 shr_record_of_loc]. rewrite Hd.
  replace (Z.max (53 + e - 53) (3 - 1024 - 53) - e) with 0 by lia.
  cbn [shr shr_m loc_of_shr_record round_nearest_even Zdigits2 shr_record_of_loc].
  rewrite Hd.
  replace (Z.max (53 + e - 53) (3 - 1024 - 53) - e) with 0 by lia.
  cbn [shr shr_m].
  destruct (e <=? 1024 - 53) eqn:E; [reflexivity|].
  apply Z.leb_gt in E. lia.
Qed.

Lemma digits2_pos_spec (p : positive) :
  2 ^ (Zpos (digits2_pos p) - 1) <= Zpos p < 2 ^ Zpos (digits2_pos p).
Proof.
  induction p as [p IH|p IH|]; simpl digits2_pos.
  - rewrite Pos2Z.inj_succ.
    replace (Z.succ (Zpos (digits2_pos p)) - 1) with (Z.succ (Zpos (digits2_pos p) - 1)) by lia.
    rewrite !Z.pow_succ_r by lia. lia.
  - rewrite Pos2Z.inj_succ.
    replace (Z.succ (Zpos (digits2_pos p)) - 1) with (Z.succ (Zpos (digits2_pos p) - 1)) by lia.
    rewrite !Z.pow_succ_r by lia. lia.
  - simpl. lia.
Qed.

Lemma digits2_pos_unique (p : positive) (n : Z) :
  2 ^ (n - 1) <= Zpos p < 2 ^ n -> Zpos (digits2_pos p) = n.
Proof.
  intros [Hlo Hhi]. pose proof (digits2_pos_spec p) as [Hlo' Hhi'].
  assert (0 < n).
  { destruct (Z.ltb_spec 0 n); [assumption|].
    destruct (Z.eqb_spec n 0) as [->|]; [simpl in Hhi; lia|].
    rewrite Z.pow_neg_r in Hhi by lia. lia. }
  destruct (Z.lt_trichotomy (Zpos (digits2_pos p)) n) as [Hlt|[Heq|Hgt]]; [|exact Heq|].
  - assert (2 ^ Zpos (digits2_pos p) <= 2 ^ (n - 1)) by (apply Z.pow_le_mono_r; lia). lia.
  - assert (2 ^ n <= 2 ^ (Zpos (digits2_pos p) - 1)) by (apply Z.pow_le_mono_r; lia). lia.
Qed.

Lemma shr_1_m (mrs : shr_record) :
  0 <= shr_m mrs -> shr_m (shr_1 mrs) = shr_m mrs / 2.
Proof.
  destruct mrs as [m r s]. cbn [shr_m]. intro Hm.
  destruct m as [|[p|p|]|p]; cbn [shr_1 shr_m]; try lia;
    first [ reflexivity
          | apply Z.div_unique with (r := 1); lia
          | apply Z.div_unique with (r := 0); lia ].
Qed.

Lemma iter_shr_1_m (k : positive) (mrs : shr_record) :
  0 <= shr_m mrs -> shr_m (iter_pos shr_1 k mrs) = shr_m mrs / 2 ^ Zpos k.
Proof.
  revert mrs. induction k as [k IH|k IH|]; intros mrs Hm; simpl iter_pos.
  - assert (H1 : 0 <= shr_m (shr_1 mrs)).
    { rewrite shr_1_m by exact Hm. apply Z.div_pos; lia. }
    assert (H2 : 0 <= shr_m (iter_pos shr_1 k (shr_1 mrs))).
    { rewrite IH by exact H1. apply Z.div_pos; lia. }
    rewrite (IH _ H2), (IH _ H1), shr_1_m by exact Hm.
    rewrite !Z.div_div by lia. f_equal.
    replace (Zpos k~1) with (Zpos k + Zpos k + 1) by lia.
    rewrite 2!Z.pow_add_r by lia. rewrite Z.pow_1_r. ring.
  - assert (H1 : 0 <= shr_m (iter_pos shr_1 k mrs)).
    { rewrite IH by exact Hm. apply Z.div_pos; lia. }
    rewrite (IH _ H1), (IH _ Hm).
    rewrite !Z.div_div by lia. f_equal.
    replace (Zpos k~0) with (Zpos k + Zpos k) by lia.
    rewrite Z.pow_add_r by lia. ring.
  - now apply shr_1_m.
Qed.

Lemma round_nearest_even_range (m : Z) (l : location) :
  m <= round_nearest_even m l <= m + 1.
Proof.
  unfold round_nearest_even. destruct l as [|[]]; try lia.
  destruct (Z.even m); lia.
Qed.

(** The rounding of an integer of more than 53 bits: a finite float, or
    infinity when the exponent is too large. *)
Lemma binary_round_aux_large (n : positive) :
  53 < Zpos (digits2_pos n) ->
  exists m e,
    binary_round_aux prec emax false (Zpos n) 0 loc_Exact
    = (if e <=? 1024 - 53 then S754_finite false m e else S754_infinity false) /\
    e <= Zpos (digits2_pos n) - 52.
Proof.
  intro Hd. pose proof (digits2_pos_spec n) as [Hlo Hhi].
  set (d := Zpos (digits2_pos n)) in *.
  unfold binary_round_aux, shr_fexp, fexp, emin, prec, emax.
  cbn [Zdigits2 shr_record_of_loc]. fold d.
  replace (Z.max (d + 0 - 53) (3 - 1024 - 53) - 0) with (d - 53) by lia.
  destruct (d - 53) as [|k|k] eqn:Ek; try lia.
  cbn [shr].
  set (mrs := iter_pos shr_1 k _).
  assert (Hm1 : shr_m mrs = Zpos n / 2 ^ Zpos k).
  { unfold mrs. now rewrite iter_shr_1_m. }
  assert (Hpow : 2 ^ d = 2 ^ 53 * 2 ^ Zpos k).
  { rewrite <- Z.pow_add_r by lia. f_equal. lia. }
  assert (Hpow' : 2 ^ (d - 1) = 2 ^ 52 * 2 ^ Zpos k).
  { rewrite <- Z.pow_add_r by lia. f_equal. lia. }
  assert (Hk : 0 < 2 ^ Zpos k) by (apply Z.pow_pos_nonneg; lia).
  assert (Hr1 : 2 ^ 52 <= shr_m mrs < 2 ^ 53).
  { rewrite Hm1. split.
    - apply Z.div_le_lower_bound; lia.
    - apply Z.div_lt_upper_bound; lia. }
  pose proof (round_nearest_even_range (shr_m mrs) (loc_of_shr_record mrs)) as Hr2.
  set (m2 := round_nearest_even (shr_m mrs) (loc_of_shr_record mrs)) in *.
  destruct m2 as [|p2|p2] eqn:Em2; try lia.
  cbn [Zdigits2].
  destruct (Z.eq_dec (Zpos p2) (2 ^ 53)) as [Heq|Hne].
  - assert (Hd2 : Zpos (digits2_pos p2) = 54).
    { apply digits2_pos_unique. rewrite Heq. simpl. lia. }
    rewrite Hd2.
    replace (Z.max (54 + (0 + Zpos k) - 53) (3 - 1024 - 53) - (0 + Zpos k)) with 1 by lia.
    injection Heq as ->. cbn [shr iter_pos shr_1 shr_m].
    eexists. eexists. split; [reflexivity|lia].
  - assert (Hd2 : Zpos (digits2_pos p2) = 53) by (apply digits2_pos_unique; lia).
    rewrite Hd2.
    replace (Z.max (53 + (0 + Zpos k) - 53) (3 - 1024 - 53) - (0 + Zpos k)) with 0 by lia.
    cbn [shr shr_m]. eexists. eexists. split; [reflexivity|lia].
Qed.

(** [float(n)] of a positive [int]: a finite float, or an overflow. *)
Lemma binary_normalize_pos (p : positive) :
  exists m e,
    binary_normalize prec emax (Zpos p) 0 false
    = (if e <=? 1024 - 53 then S754_finite false m e else S754_infinity false) /\
    e <= Z.max 0 (Zpos (digits2_pos p) - 52).
Proof.
  unfold binary_normalize, binary_round.
  unfold shl_align, fexp, emin, prec, emax.
  assert (Hpos : 0 < Zpos (digits2_pos p)) by lia.
  destruct (Z.ltb_spec 53 (Zpos (digits2_pos p))) as [Hbig|Hsmall].
  - replace (Z.max (Zpos (digits2_pos p) + 0 - 53) (3 - 1024 - 53) - 0)
      with (Zpos (digits2_pos p) - 53) by lia.
    destruct (Zpos (digits2_pos p) - 53) as [|q|q] eqn:Eq; try lia.
    fold prec emax.
    destruct (binary_round_aux_large p Hbig) as (m & e & -> & He).
    exists m, e. split; [reflexivity|lia].
  - replace (Z.max (Zpos (digits2_pos p) + 0 - 53) (3 - 1024 - 53) - 0)
      with (Zpos (digits2_pos p) - 53) by lia.
    destruct (Zpos (digits2_pos p) - 53) as [|q|q] eqn:Eq; try lia.
    + fold prec emax. rewrite binary_round_aux_normal by lia.
      exists p, 0. split; [reflexivity|lia].
    + replace (Z.max (Zpos (digits2_pos p) + 0 - 53) (3 - 1024 - 53))
        with (Zneg q) by lia.
      fold prec emax. rewrite binary_round_aux_normal.
      * exists (Pos.iter xO p q), (Zneg q).
        split; [reflexivity|lia].
      * rewrite digits2_pos_iter_xO. lia.
      * lia.
Qed.

Lemma float_of_int_finite (n : Z) :
  1 <= n < 2 ^ 1023 ->
  exists m e, float_of_int n = Ok (S754_finite false m e).
Proof.
  intros [Hlo Hhi]. destruct n as [|p|p]; try lia.
  pose proof (digits2_pos_bound p 1023 ltac:(lia) Hhi) as Hd.
  destruct (binary_normalize_pos p) as (m & e & Hn & He).
  unfold float_of_int. rewrite Hn.
  destruct (Z.leb_spec e (1024 - 53)); [eauto|lia].
Qed.

(** A count of one at least never converts to zero. *)
Lemma float_of_int_not_zero (n : Z) (s : bool) :
  1 <= n -> float_of_int n <> Ok (S754_zero s).
Proof.
  intros Hn. destruct n as [|p|p]; try lia.
  destruct (binary_normalize_pos p) as (m & e & Hp & _).
  unfold float_of_int. rewrite Hp.
  destruct (e <=? 1024 - 53); discriminate.
Qed.

Lemma dict_get_In {V : Type} (k : str) (v : V) (d : dict V) :
  dict_get k d = Some v -> exists k', In (k', v) d.
Proof.
  induction d as [|[k0 v0] d IH]; simpl; [discriminate|].
  destruct (str_eqb k k0).
  - intros [= ->]. exists k0. now left.
  - intro H. destruct (IH H) as [k' Hin]. exists k'. now right.
Qed.

Lemma Forall_dict_set {V : Type} (Q : V -> Prop) (k : str) (v : V) (d : dict V) :
  Forall (fun it => Q (snd it)) d -> Q v ->
  Forall (fun it => Q (snd it)) (dict_set k v d).
Proof.
  intros Hd Hv. induction d as [|[k0 v0] d IH]; simpl.
  - now repeat constructor.
  - inversion Hd; subst. destruct (str_eqb k k0); constructor; auto.
Qed.

(** Every count is at least one, and at most the number of rows read. *)
Lemma counts_after_ingest (k : str) (v : float) (t : tables) (B : Z) :
  0 <= B ->
  Forall (fun it => 1 <= snd it <= B) (medicoes t) ->
  Forall (fun it => 1 <= snd it <= B + 1) (medicoes (ingest k v t)).
Proof.
  intros HB H. rewrite ingest_unfold. simpl.
  apply (Forall_dict_set (fun n => 1 <= n <= B + 1)).
  - eapply Forall_impl; [|exact H]. simpl. intros. lia.
  - unfold count_of. destruct (dict_get k (medicoes t)) as [n|] eqn:E.
    + destruct (dict_get_In _ _ _ E) as [k' Hin].
      rewrite Forall_forall in H. specialize (H _ Hin). simpl in H. lia.
    + lia.
Qed.

Lemma counts_after_for_rows {db : UnicodeDB} (rows : list (result (list str)))
    (t t' : tables) (r : result unit) (B : Z) :
  for_rows rows t = (t', r) ->
  0 <= B ->
  Forall (fun it => 1 <= snd it <= B) (medicoes t) ->
  Forall (fun it => 1 <= snd it <= B + Z.of_nat (List.length rows)) (medicoes t').
Proof.
  revert t B. induction rows as [|[row|e] rows IH]; intros t B Hrun HB Hinv.
  - simpl in Hrun. injection Hrun as <- _. simpl.
    eapply Forall_impl; [|exact Hinv]. simpl. intros. lia.
  - simpl in Hrun. unfold process_row in Hrun.
    destruct (parse_row row) as [[k v]|e].
    + apply IH with (B := B + 1) in Hrun; [|lia|now apply counts_after_ingest].
      eapply Forall_impl; [|exact Hrun]. simpl List.length. intros. simpl in *. lia.
    + injection Hrun as <- _.
      eapply Forall_impl; [|exact Hinv]. intros. simpl in *. lia.
  - simpl in Hrun. injection Hrun as <- _.
    eapply Forall_impl; [|exact Hinv]. intros. simpl in *. lia.
Qed.

(** The reader gives at most one row a line. *)
Lemma Reader_iternext_length (lines : list str) (self : ReaderObj) :
  (List.length (Reader_iternext self lines)
   <= List.length lines + List.length (Reader_iternext self []))%nat.
Proof.
  assert (Hone : forall s, (List.length (Reader_iternext s []) <= 1)%nat).
  { intro s. simpl. destruct (_ || _); simpl; lia. }
  revert self. induction lines as [|line rest IH]; intro self.
  - simpl. lia.
  - cbn [Reader_iternext]. destruct (feed_line self line) as [self'|e].
    + destruct (ParserState_eqb (state self') START_RECORD).
      * specialize (IH parse_reset). simpl in *. lia.
      * specialize (IH self'). specialize (Hone self'). simpl List.length. lia.
    + simpl. lia.
Qed.

Lemma compute_results_ok (items : list (str * Z)) (t : tables)
    (results : dict (float * float * float)) :
  Forall (fun it => 1 <= snd it < 2 ^ 1023) items ->
  exists r, compute_results items t results = Ok r.
Proof.
  revert t results. induction items as [|[station qtd] items IH];
    intros t results Hall; simpl.
  - eauto.
  - inversion Hall as [|? ? Hq Hall']; subst. simpl in Hq.
    destruct (defaultdict_getitem zero station (somas t)) as [total somas'].
    destruct (float_of_int_finite qtd Hq) as (m & e & Hf).
    unfold float_truediv_int. rewrite Hf.
    destruct (defaultdict_getitem inf station (minimas t)) as [lo minimas'].
    destruct (defaultdict_getitem neg_inf station (maximas t)) as [hi maximas'].
    now apply IH.
Qed.

Lemma compute_results_no_zero_division (items : list (str * Z)) (t : tables)
    (results : dict (float * float * float)) :
  Forall (fun it => 1 <= snd it) items ->
  compute_results items t results <> Raise ZeroDivisionError.
Proof.
  revert t results. induction items as [|[station qtd] items IH];
    intros t results Hall; simpl.
  - discriminate.
  - inversion Hall as [|? ? Hq Hall']; subst. simpl in Hq.
    destruct (defaultdict_getitem zero station (somas t)) as [total somas'].
    unfold float_truediv_int.
    destruct (float_of_int qtd) as [b|e] eqn:Hf.
    + destruct b as [s|s| |s m e];
        try (destruct (defaultdict_getitem inf station (minimas t));
             destruct (defaultdict_getitem neg_inf station (maximas t));
             now apply IH).
      exfalso. exact (float_of_int_not_zero qtd s Hq Hf).
    + unfold float_of_int in Hf.
      destruct (binary_normalize prec emax qtd 0 false); try discriminate Hf.
      injection Hf as <-. discriminate.
Qed.

(** C9.  When the first loop has ended, every station of the table has a count
    of one at least, so the mean is never a division by zero; and the snapshot
    does not fail (the file having fewer than 2^1023 lines, its counts convert
    to finite floats). *)
Theorem snapshot_cannot_fail {db : UnicodeDB} (lines : list str) (t : tables) :
  load lines = (t, Ok tt) ->
  (forall k n, dict_get k (medicoes t) = Some n -> 1 <= n) /\
  snapshot t <> Raise ZeroDivisionError /\
  (Z.of_nat (List.length lines) < 2 ^ 1023 -> exists results, snapshot t = Ok results).
Proof.
  intro Hload. unfold load in Hload.
  apply counts_after_for_rows with (B := 0) in Hload; [|lia|constructor].
  pose proof (Reader_iternext_length lines parse_reset) as Hrows.
  change (List.length (Reader_iternext parse_reset [])) with 0%nat in Hrows.
  fold (reader lines) in Hrows.
  split; [|split].
  - intros k n Hget. destruct (dict_get_In _ _ _ Hget) as [k' Hin].
    rewrite Forall_forall in Hload. specialize (Hload _ Hin). simpl in Hload. lia.
  - apply compute_results_no_zero_division.
    eapply Forall_impl; [|exact Hload]. simpl. intros. lia.
  - intro Hlen. apply compute_results_ok.
    eapply Forall_impl; [|exact Hload]. simpl. intros. lia.
Qed.

Lemma snapshot_cannot_fail_witness :
  let lines := [lit "A;10.0" ++ LF; lit "A;20.0" ++ LF; lit "B;-5.5" ++ LF] in
  (forall k n, dict_get k (medicoes (fst (@load ascii_db lines))) = Some n -> 1 <= n) /\
  snapshot (fst (@load ascii_db lines)) <> Raise ZeroDivisionError /\
  (Z.of_nat (List.length lines) < 2 ^ 1023 ->
   exists results, snapshot (fst (@load ascii_db lines)) = Ok results).
Proof.
  intro lines.
  apply (@snapshot_cannot_fail ascii_db lines (fst (@load ascii_db lines))).
  reflexivity.
Defined.

(** ** The order of strings and of their UTF-8 encodings *)

Ltac split_ifs :=
  repeat match goal with
  | |- context [if ?a <? ?b then _ else _] => destruct (Z.ltb_spec a b)
  | |- context [if ?a =? ?b then _ else _] => destruct (Z.eqb_spec a b)
  end.

(** A smaller code point has a smaller encoding, whatever follows. *)
Lemma utf8_char_lt (x y : char) (A B : list Z) :
  0 <= x -> x < y -> y < 1114112 ->
  str_ltb (utf8_char x ++ A) (utf8_char y ++ B) = true.
Proof.
  intros Hx Hxy Hy. unfold utf8_char.
  destruct (Z.ltb_spec x 128); destruct (Z.ltb_spec x 2048);
    destruct (Z.ltb_spec x 65536); try lia;
    destruct (Z.ltb_spec y 128); destruct (Z.ltb_spec y 2048);
    destruct (Z.ltb_spec y 65536); try lia;
    cbn [app str_ltb]; split_ifs;
    first [ reflexivity
          | apply Z.ltb_lt; Z.to_euclidean_division_equations; lia
          | exfalso; Z.to_euclidean_division_equations; lia ].
Qed.

Lemma utf8_char_nonempty (c : char) : exists h t, utf8_char c = h :: t.
Proof. unfold utf8_char. split_ifs; eauto. Qed.

Lemma str_ltb_prefix (p a b : list Z) : str_ltb (p ++ a) (p ++ b) = str_ltb a b.
Proof.
  induction p as [|h p IH]; simpl; [reflexivity|].
  now rewrite Z.eqb_refl.
Qed.

(** The order of code points is the order of the bytes of the encodings. *)
Lemma utf8_monotone (a b : str) :
  Forall code_point a -> Forall code_point b ->
  str_ltb a b = true -> str_ltb (utf8 a) (utf8 b) = true.
Proof.
  revert b. induction a as [|x a IH]; intros [|y b] Ha Hb Hlt;
    simpl in Hlt; try discriminate.
  - simpl. destruct (utf8_char_nonempty y) as (h & t & ->). reflexivity.
  - inversion Ha as [|? ? Hx Ha']; inversion Hb as [|? ? Hy Hb']; subst.
    unfold code_point in Hx, Hy. simpl.
    destruct (Z.eqb_spec x y) as [->|Hne].
    + rewrite str_ltb_prefix. now apply IH.
    + apply Z.ltb_lt in Hlt. apply utf8_char_lt; lia.
Qed.

Lemma str_ltb_irrefl (a : list Z) : str_ltb a a = false.
Proof. induction a as [|x a IH]; simpl; [reflexivity|]. now rewrite Z.eqb_refl. Qed.

Lemma str_ltb_trans (a b c : list Z) :
  str_ltb a b = true -> str_ltb b c = true -> str_ltb a c = true.
Proof.
  revert b c. induction a as [|x a IH]; intros [|y b] [|z c]; simpl;
    try discriminate; try reflexivity.
  destruct (Z.eqb_spec x y) as [Hxy|Hxy]; destruct (Z.eqb_spec y z) as [Hyz|Hyz];
    destruct (Z.eqb_spec x z) as [Hxz|Hxz]; try lia;
    intros H1 H2; try (apply Z.ltb_lt in H1); try (apply Z.ltb_lt in H2);
    try (apply Z.ltb_lt); try lia.
  eapply IH; eassumption.
Qed.

Lemma str_ltb_total (a b : list Z) :
  str_ltb a b = false -> a <> b -> str_ltb b a = true.
Proof.
  revert b. induction a as [|x a IH]; intros [|y b]; simpl;
    try discriminate; try reflexivity; try congruence.
  rewrite (Z.eqb_sym y x).
  destruct (Z.eqb_spec x y) as [->|Hxy].
  - intros H Hne. apply IH; [exact H|]. congruence.
  - intros H _. apply Z.ltb_ge in H. apply Z.ltb_lt. lia.
Qed.

(** ** [sorted] on items of distinct stations *)

Lemma item_ltb_keys (a b : str * (float * float * float)) :
  fst a <> fst b -> item_ltb a b = str_ltb (fst a) (fst b).
Proof.
  destruct a as [ka [[a1 a2] a3]], b as [kb [[b1 b2] b3]]. simpl.
  intro Hne. apply str_eqb_neq in Hne. now rewrite Hne.
Qed.

Lemma insert_perm {A : Type} (ltb : A -> A -> bool) (x : A) (l : list A) :
  Permutation (x :: l) (insert ltb x l).
Proof.
  induction l as [|y l IH]; simpl; [reflexivity|].
  destruct (ltb x y); [reflexivity|].
  rewrite perm_swap. now constructor.
Qed.

Lemma insert_sorted (x : str * (float * float * float))
    (l : list (str * (float * float * float))) :
  StronglySorted (fun a b => str_ltb (fst a) (fst b) = true) l ->
  Forall (fun y => fst x <> fst y) l ->
  StronglySorted (fun a b => str_ltb (fst a) (fst b) = true) (insert item_ltb x l).
Proof.
  intros Hs Hne. induction Hs as [|y l Hs IH Hy]; simpl.
  - repeat constructor.
  - inversion Hne as [|? ? Hxy Hne']; subst.
    rewrite (item_ltb_keys x y Hxy).
    destruct (str_ltb (fst x) (fst y)) eqn:E.
    + constructor; [now constructor|].
      constructor; [exact E|].
      eapply Forall_impl; [|exact Hy]. intros z Hz.
      eapply str_ltb_trans; eassumption.
    + constructor; [now apply IH|].
      apply Forall_forall. intros z Hz.
      apply (Permutation_in _ (Permutation_sym (insert_perm item_ltb x l))) in Hz.
      destruct Hz as [<-|Hz].
      * now apply str_ltb_total.
      * rewrite Forall_forall in Hy. now apply Hy.
Qed.

Lemma sorted_fold_spec (l acc : list (str * (float * float * float))) :
  NoDup (keys (acc ++ l)) ->
  StronglySorted (fun a b => str_ltb (fst a) (fst b) = true) acc ->
  StronglySorted (fun a b => str_ltb (fst a) (fst b) = true)
    (fold_left (fun acc x => insert item_ltb x acc) l acc) /\
  Permutation (acc ++ l) (fold_left (fun acc x => insert item_ltb x acc) l acc).
Proof.
  revert acc. induction l as [|x l IH]; intros acc Hnd Hs; simpl.
  - rewrite app_nil_r. auto.
  - assert (Hperm : Permutation (acc ++ x :: l) (insert item_ltb x acc ++ l)).
    { rewrite <- (insert_perm item_ltb x acc). symmetry.
      apply Permutation_middle. }
    destruct (IH (insert item_ltb x acc)) as [Hs' Hp'].
    + unfold keys in *. eapply Permutation_NoDup; [|exact Hnd].
      now apply Permutation_map.
    + apply insert_sorted; [exact Hs|].
      apply Forall_forall. intros y Hy Heq.
      unfold keys in Hnd. rewrite map_app in Hnd. simpl in Hnd.
      apply NoDup_remove_2 in Hnd. apply Hnd.
      apply in_or_app. left. rewrite Heq. now apply in_map.
    + split; [exact Hs'|]. now rewrite Hperm.
Qed.

Lemma sorted_spec (l : list (str * (float * float * float))) :
  NoDup (keys l) ->
  StronglySorted (fun a b => str_ltb (fst a) (fst b) = true) (sorted item_ltb l) /\
  Permutation l (sorted item_ltb l).
Proof.
  intro Hnd. apply (sorted_fold_spec l []); [exact Hnd|constructor].
Qed.

(** ** The stations of the output *)

Lemma keys_format (l : list (str * (float * float * float))) :
  keys (map format_item l) = keys l.
Proof.
  unfold keys. rewrite map_map. apply map_ext.
  intros [k [[a b] c]]. reflexivity.
Qed.

Lemma keys_dict_set_incl {V : Type} (d : dict V) (k k' : str) (v : V) :
  In k' (keys (dict_set k v d)) -> In k' (keys d) \/ k' = k.
Proof.
  destruct (keys_dict_set_cases d k v) as [->|[_ ->]]; [now left|].
  intro H. apply in_app_or in H as [H|[H|[]]]; auto.
Qed.

(** The dictionary of results has each station once, and only stations that
    were counted. *)
Lemma compute_results_keys (items : list (str * Z)) (t : tables)
    (results r : dict (float * float * float)) :
  compute_results items t results = Ok r ->
  NoDup (keys results) ->
  NoDup (keys r) /\
  forall k, In k (keys r) -> In k (keys results) \/ In k (map fst items).
Proof.
  revert t results. induction items as [|[station qtd] items IH];
    intros t results Hrun Hnd; simpl in Hrun.
  - injection Hrun as <-. auto.
  - destruct (defaultdict_getitem zero station (somas t)) as [total somas'].
    destruct (float_truediv_int total qtd) as [mean_temp|e]; [|discriminate].
    destruct (defaultdict_getitem inf station (minimas t)) as [lo minimas'].
    destruct (defaultdict_getitem neg_inf station (maximas t)) as [hi maximas'].
    apply IH in Hrun; [|now apply NoDup_keys_dict_set].
    destruct Hrun as [Hnd' Hin]. split; [exact Hnd'|].
    intros k Hk. destruct (Hin k Hk) as [H|H].
    + apply keys_dict_set_incl in H as [H| ->]; [now left|right; now left].
    + right. now right.
Qed.

Lemma parse_row_key {db : UnicodeDB} (row : list str) (k : str) (v : float) :
  parse_row row = Ok (k, v) -> In k row.
Proof.
  unfold parse_row, getitem.
  destruct row as [|k0 [|campo row]]; simpl; try discriminate.
  destruct (float_of_str campo); [|discriminate].
  intros [= -> _]. now left.
Qed.

Section ReaderChars.
Variable P : char -> Prop.

(** The reader puts into its fields only characters it was fed. *)
Lemma parse_process_char_chars (self self' : ReaderObj) (c : input) :
  Forall (Forall P) (fields self) /\ Forall P (field self) ->
  match c with Ch ch => P ch | EOL => True end ->
  parse_process_char self c = Ok self' ->
  Forall (Forall P) (fields self') /\ Forall P (field self').
Proof.
  intros [Hfs Hf] Hc.
  assert (Hsave : Forall (Forall P) (fields self ++ [field self])).
  { apply Forall_app. split; [exact Hfs|]. now repeat constructor. }
  unfold parse_process_char, start_field, parse_add_char, map_result.
  destruct (state self); destruct c as [ch|];
    repeat match goal with
           | |- context [if ?b then _ else _] => destruct b
           end;
    intro H; try discriminate H; injection H as <-; simpl;
    (split; [assumption|]);
    first [ assumption | constructor
          | apply Forall_app; split; [assumption|now repeat constructor] ].
Qed.

Lemma feed_chars_chars (line : str) (self self' : ReaderObj) :
  Forall (Forall P) (fields self) /\ Forall P (field self) ->
  Forall P line ->
  feed_chars self line = Ok self' ->
  Forall (Forall P) (fields self') /\ Forall P (field self').
Proof.
  revert self. induction line as [|c line IH]; intros self Hself Hline; simpl.
  - now intros [= <-].
  - inversion Hline as [|? ? Hc Hline']; subst.
    destruct (parse_process_char self (Ch c)) as [self1|e] eqn:E; [|discriminate].
    apply IH; [|exact Hline'].
    exact (parse_process_char_chars self self1 (Ch c) Hself Hc E).
Qed.

Lemma feed_line_chars (line : str) (self self' : ReaderObj) :
  Forall (Forall P) (fields self) /\ Forall P (field self) ->
  Forall P line ->
  feed_line self line = Ok self' ->
  Forall (Forall P) (fields self') /\ Forall P (field self').
Proof.
  intros Hself Hline. unfold feed_line.
  destruct (feed_chars self line) as [self1|e] eqn:E; [|discriminate].
  apply (parse_process_char_chars self1 self' EOL); [|exact I].
  exact (feed_chars_chars line self self1 Hself Hline E).
Qed.

Lemma Reader_iternext_chars (lines : list str) (self : ReaderObj) :
  Forall (Forall P) (fields self) /\ Forall P (field self) ->
  Forall (Forall P) lines ->
  Forall (fun r => match r with
                   | Ok row => Forall (Forall P) row
                   | Raise _ => True
                   end) (Reader_iternext self lines).
Proof.
  revert self. induction lines as [|line lines IH]; intros self Hself Hlines.
  - simpl. destruct (_ || _); constructor; [|constructor].
    simpl. destruct Hself as [Hfs Hf]. apply Forall_app. split; [exact Hfs|].
    now repeat constructor.
  - inversion Hlines as [|? ? Hline Hlines']; subst. cbn [Reader_iternext].
    destruct (feed_line self line) as [self'|e] eqn:E.
    + pose proof (feed_line_chars line self self' Hself Hline E) as Hself'.
      destruct (ParserState_eqb (state self') START_RECORD).
      * constructor; [exact (proj1 Hself')|].
        apply IH; [|exact Hlines']. split; constructor.
      * now apply IH.
    + now repeat constructor.
Qed.

Lemma for_rows_chars {db : UnicodeDB} (rows : list (result (list str)))
    (t t' : tables) (r : result unit) :
  for_rows rows t = (t', r) ->
  Forall (fun r => match r with
                   | Ok row => Forall (Forall P) row
                   | Raise _ => True
                   end) rows ->
  Forall (Forall P) (keys (medicoes t)) ->
  Forall (Forall P) (keys (medicoes t')).
Proof.
  revert t. induction rows as [|[row|e] rows IH]; intros t Hrun Hrows Ht;
    simpl in Hrun.
  - now injection Hrun as <- _.
  - inversion Hrows as [|? ? Hrow Hrows']; subst.
    unfold process_row in Hrun.
    destruct (parse_row row) as [[k v]|e] eqn:E; [|now injection Hrun as <- _].
    apply IH in Hrun; [exact Hrun|exact Hrows'|].
    rewrite ingest_unfold. simpl.
    apply Forall_forall. intros k' Hk'.
    apply keys_dict_set_incl in Hk' as [Hk'| ->].
    + rewrite Forall_forall in Ht. now apply Ht.
    + rewrite Forall_forall in Hrow. apply Hrow.
      exact (parse_row_key row k v E).
  - now injection Hrun as <- _.
Qed.
End ReaderChars.

Lemma StronglySorted_strict_NoDup {A : Type} (R : A -> A -> Prop) (l : list A) :
  (forall a, ~ R a a) -> StronglySorted R l -> NoDup l.
Proof.
  intros Hirr Hs. induction Hs as [|a l Hs IH Ha]; constructor; [|exact IH].
  intro Hin. rewrite Forall_forall in Ha. exact (Hirr a (Ha a Hin)).
Qed.

Lemma StronglySorted_map_fst {V : Type} (R : str -> str -> Prop) (l : dict V) :
  StronglySorted (fun a b => R (fst a) (fst b)) l -> StronglySorted R (keys l).
Proof.
  induction 1 as [|a l Hs IH Ha]; simpl; constructor; [exact IH|].
  unfold keys. apply Forall_forall. intros k Hk.
  apply in_map_iff in Hk as [b [<- Hb]].
  rewrite Forall_forall in Ha. now apply Ha.
Qed.

Lemma StronglySorted_utf8 (l : list str) :
  Forall (Forall code_point) l ->
  StronglySorted (fun a b => str_ltb a b = true) l ->
  StronglySorted (fun a b => str_ltb (utf8 a) (utf8 b) = true) l.
Proof.
  intros Hl Hs. induction Hs as [|a l Hs IH Ha].
  - constructor.
  - inversion Hl as [|? ? Hca Hcl]; subst. constructor.
    + now apply IH.
    + rewrite Forall_forall in Ha, Hcl. apply Forall_forall. intros b Hb.
      apply utf8_monotone; auto.
Qed.

(** C5.  For every input (a text of Unicode code points), the keys of the
    formatted output are strictly increasing in the byte-wise lexicographic
    order of their UTF-8 encodings, and no key comes twice. *)
Theorem output_keys_strictly_increasing {db : UnicodeDB}
    (lines : list str) (out : dict str) :
  Forall (Forall code_point) lines ->
  processar_temperaturas lines = Ok out ->
  StronglySorted (fun a b => str_ltb (utf8 a) (utf8 b) = true) (keys out) /\
  NoDup (keys out).
Proof.
  intros Hlines Hrun. unfold processar_temperaturas in Hrun.
  destruct (load lines) as [t [[]|e]] eqn:Hload; [|discriminate].
  destruct (snapshot t) as [results|e] eqn:Hsnap; [|discriminate].
  injection Hrun as <-. rewrite keys_format.
  unfold snapshot in Hsnap.
  destruct (compute_results_keys _ _ _ _ Hsnap (NoDup_nil _)) as [Hnd Hin].
  destruct (sorted_spec results Hnd) as [Hsorted Hperm].
  assert (Hkeys : Forall (Forall code_point) (keys (medicoes t))).
  { unfold load in Hload.
    apply (for_rows_chars code_point _ _ _ _ Hload); [|constructor].
    apply Reader_iternext_chars; [split; constructor|exact Hlines]. }
  assert (Hvalid : Forall (Forall code_point) (keys (sorted item_ltb results))).
  { apply Forall_forall. intros k Hk.
    unfold keys in Hk.
    apply (Permutation_in _ (Permutation_map fst (Permutation_sym Hperm))) in Hk.
    destruct (Hin k Hk) as [[]|Hk'].
    rewrite Forall_forall in Hkeys. now apply Hkeys. }
  apply (StronglySorted_map_fst (fun a b => str_ltb a b = true)) in Hsorted.
  split.
  - now apply StronglySorted_utf8.
  - apply (StronglySorted_strict_NoDup (fun a b => str_ltb a b = true)); [|exact Hsorted].
    intros a Ha. rewrite str_ltb_irrefl in Ha. discriminate.
Qed.

Lemma output_keys_strictly_increasing_witness :
  let lines := [lit "B;-5.5" ++ LF; lit "A;10.0" ++ LF; lit "AB;20.0" ++ LF] in
  let out := [(lit "A", lit "10.0/10.0/10.0"); (lit "AB", lit "20.0/20.0/20.0");
              (lit "B", lit "-5.5/-5.5/-5.5")] in
  StronglySorted (fun a b => str_ltb (utf8 a) (utf8 b) = true) (keys out) /\
  NoDup (keys out).
Proof.
  intros lines out.
  apply (@output_keys_strictly_increasing ascii_db lines out).
  - repeat constructor; unfold code_point; lia.
  - reflexivity.
Defined.

(** * Further properties of the two loops *)

(** ** The first loop as a fold of [ingest] *)

Lemma for_rows_ingested {db : UnicodeDB} (rows : list (result (list str))) (t : tables) :
  fst (for_rows rows t) = ingest_all (ingested rows) t.
Proof.
  revert t. induction rows as [|[row|e] rows IH]; intro t; simpl; try reflexivity.
  unfold process_row. destruct (parse_row row) as [[k v]|e]; [|reflexivity].
  specialize (IH (ingest k v t)).
  destruct (for_rows rows (ingest k v t)) as [t' [[]|e]]; exact IH.
Qed.

Lemma reader_cons_whole (line : str) (rest : list str) (self : ReaderObj) :
  feed_line parse_reset line = Ok self -> state self = START_RECORD ->
  reader (line :: rest) = Ok (fields self) :: reader rest.
Proof.
  intros Hfeed Hst. unfold reader. simpl. now rewrite Hfeed, Hst.
Qed.

Lemma for_rows_well_formed {db : UnicodeDB} (lines : list str)
    (recs : list (str * float)) (t : tables) :
  Forall2 (fun line r => whole_record line /\ parse_line line = Ok r) lines recs ->
  for_rows (reader lines) t = (ingest_all recs t, Ok tt).
Proof.
  intro H. revert t.
  induction H as [|line r lines recs [[self [Hfeed Hst]] Hparse] _ IH]; intro t.
  - reflexivity.
  - rewrite (reader_cons_whole line lines self Hfeed Hst).
    unfold parse_line in Hparse.
    rewrite (reader_cons_whole line [] self Hfeed Hst) in Hparse.
    simpl. unfold process_row. rewrite Hparse. destruct r as [k v].
    rewrite IH. reflexivity.
Qed.

(** X1.  When every line is a record of its own that the parse step accepts,
    the first loop ends without an error and leaves the tables of the parsed
    records, ingested in the order of the lines from the empty tables. *)
Theorem load_ingests_the_parsed_lines {db : UnicodeDB} (lines : list str)
    (recs : list (str * float)) :
  Forall2 (fun line r => whole_record line /\ parse_line line = Ok r) lines recs ->
  load lines = (ingest_all recs empty_tables, Ok tt).
Proof. intro H. unfold load. now apply for_rows_well_formed. Qed.

Lemma load_ingests_the_parsed_lines_witness :
  @load ascii_db [lit "A;10.0" ++ LF; lit "B;-5.5"]
  = (ingest_all [(lit "A", decimal_to_float false 100 (-1));
                 (lit "B", decimal_to_float true 55 (-1))] empty_tables, Ok tt).
Proof.
  apply (@load_ingests_the_parsed_lines ascii_db).
  repeat constructor; try (eexists; split; reflexivity).
Defined.

(** ** The statistics of one station *)

(** X2.  After any sequence of ingests from the empty tables, the count of a
    station is the number of its records, and its minimum, maximum and sum are
    the running [min], [max] and float sum of its own values in the order of
    their arrival, from plus infinity, minus infinity and 0.0: records of other
    stations in between change nothing. *)
Theorem station_state_is_fold_of_its_values (recs : list (str * float)) (k : str) :
  state_of k (ingest_all recs empty_tables) =
  {| agg_count := Z.of_nat (List.length (values_of k recs));
     agg_min := fold_left py_min (values_of k recs) inf;
     agg_max := fold_left py_max (values_of k recs) neg_inf;
     agg_sum := fold_left float_add (values_of k recs) zero |}.
Proof. rewrite state_of_ingest_all. reflexivity. Qed.

Lemma float_add_nan_l (x : float) : float_add nan x = nan.
Proof. reflexivity. Qed.

Lemma fold_float_add_nan (vs : list float) : fold_left float_add vs nan = nan.
Proof.
  induction vs as [|v vs IH]; [reflexivity|].
  cbn [fold_left]. rewrite float_add_nan_l. exact IH.
Qed.

Lemma fold_float_add_has_nan (vs : list float) (a : float) :
  In nan vs -> fold_left float_add vs a = nan.
Proof.
  revert a. induction vs as [|v vs IH]; intros a Hin; [destruct Hin|].
  destruct Hin as [Hv|Hin]; cbn [fold_left].
  - subst v. rewrite float_add_nan. apply fold_float_add_nan.
  - now apply IH.
Qed.

(** X3.  One NaN reading is enough: whatever else is ingested, before or
    after, under this or another station, the sum of the station is NaN at the
    end, while its count still counts every record. *)
Theorem nan_reading_poisons_the_sum (recs : list (str * float)) (k : str) :
  In (k, nan) recs ->
  sum_of k (ingest_all recs empty_tables) = nan /\
  count_of k (ingest_all recs empty_tables) = Z.of_nat (List.length (values_of k recs)).
Proof.
  intro Hin.
  pose proof (state_of_ingest_all k recs empty_tables) as Hs.
  unfold state_of in Hs. injection Hs as Hc _ _ Hsum.
  split; [|exact Hc].
  rewrite Hsum. apply fold_float_add_has_nan.
  unfold values_of. apply in_map_iff. exists (k, nan). split; [reflexivity|].
  apply filter_In. split; [exact Hin|]. simpl. apply str_eqb_refl.
Qed.

Lemma nan_reading_poisons_the_sum_witness :
  let recs := [(lit "A", decimal_to_float false 100 (-1)); (lit "A", nan);
               (lit "B", decimal_to_float false 1 0);
               (lit "A", decimal_to_float false 200 (-1))] in
  sum_of (lit "A") (ingest_all recs empty_tables) = nan /\
  count_of (lit "A") (ingest_all recs empty_tables)
  = Z.of_nat (List.length (values_of (lit "A") recs)).
Proof.
  apply nan_reading_poisons_the_sum. simpl. tauto.
Defined.

(** ** The stations the four dictionaries hold *)

Lemma keys_dict_set {V : Type} (k : str) (v : V) (d : dict V) :
  keys (dict_set k v d)
  = if existsb (str_eqb k) (keys d) then keys d else keys d ++ [k].
Proof.
  induction d as [|[k0 v0] d IH]; simpl; [reflexivity|].
  destruct (str_eqb k k0); simpl; [reflexivity|].
  rewrite IH. now destruct (existsb (str_eqb k) (keys d)).
Qed.

Lemma keys_defaultdict_set {V : Type} (dv v : V) (k : str) (d : dict V) :
  keys (dict_set k v (snd (defaultdict_getitem dv k d))) = keys (dict_set k v d).
Proof.
  unfold defaultdict_getitem. destruct (dict_get k d) eqn:E; simpl; [reflexivity|].
  rewrite (keys_dict_set k v (dict_set k dv d)), (keys_dict_set k dv d), (keys_dict_set k v d).
  destruct (existsb (str_eqb k) (keys d)) eqn:Ex; [now rewrite Ex|].
  rewrite existsb_app, Ex. simpl. now rewrite str_eqb_refl.
Qed.

Lemma keys_ingest (k : str) (v : float) (t : tables) :
  keys (minimas t) = keys (medicoes t) ->
  keys (maximas t) = keys (medicoes t) ->
  keys (somas t) = keys (medicoes t) ->
  let t' := ingest k v t in
  keys (medicoes t')
  = (if existsb (str_eqb k) (keys (medicoes t)) then keys (medicoes t)
     else keys (medicoes t) ++ [k]) /\
  keys (minimas t') = keys (medicoes t') /\
  keys (maximas t') = keys (medicoes t') /\
  keys (somas t') = keys (medicoes t').
Proof.
  intros Hlo Hhi Hs. cbv zeta. rewrite ingest_unfold. simpl.
  rewrite !keys_defaultdict_set, !keys_dict_set, Hlo, Hhi, Hs. auto.
Qed.

Lemma keys_ingest_all (recs : list (str * float)) (t : tables) :
  keys (minimas t) = keys (medicoes t) ->
  keys (maximas t) = keys (medicoes t) ->
  keys (somas t) = keys (medicoes t) ->
  let t' := ingest_all recs t in
  keys (medicoes t')
  = fold_left (fun acc k => if existsb (str_eqb k) acc then acc else acc ++ [k])
      (map fst recs) (keys (medicoes t)) /\
  keys (minimas t') = keys (medicoes t') /\
  keys (maximas t') = keys (medicoes t') /\
  keys (somas t') = keys (medicoes t').
Proof.
  revert t. induction recs as [|[k v] recs IH]; intros t Hlo Hhi Hs; cbv zeta.
  - simpl. auto.
  - destruct (keys_ingest k v t Hlo Hhi Hs) as (Hk & Hlo' & Hhi' & Hs').
    destruct (IH (ingest k v t) Hlo' Hhi' Hs') as (Hk2 & H2).
    unfold ingest_all in *. simpl fold_left. simpl map.
    split; [|exact H2]. rewrite Hk2, Hk. reflexivity.
Qed.

(** X4.  Whatever the lines and however the first loop ends, the four
    dictionaries hold the same stations in the same order, the order in which
    the stations first appear among the records ingested; so a station that is
    counted has a minimum, a maximum and a sum, and the reads of the second
    loop create no entry. *)
Theorem dictionaries_hold_the_same_stations {db : UnicodeDB} (lines : list str) :
  let t := fst (load lines) in
  keys (medicoes t) = first_seen (map fst (ingested (reader lines))) /\
  keys (minimas t) = keys (medicoes t) /\
  keys (maximas t) = keys (medicoes t) /\
  keys (somas t) = keys (medicoes t).
Proof.
  cbv zeta. unfold load. rewrite for_rows_ingested.
  apply (keys_ingest_all (ingested (reader lines)) empty_tables); reflexivity.
Qed.

(** ** Counting *)

Lemma total_count_dict_set (k : str) (n : Z) (c : dict Z) :
  total_count (dict_set k n c)
  = total_count c + n - match dict_get k c with Some m => m | None => 0 end.
Proof.
  induction c as [|[k0 m0] c IH]; simpl.
  - lia.
  - destruct (str_eqb k k0); simpl; [lia|]. rewrite IH. lia.
Qed.

Lemma total_count_ingest_all (recs : list (str * float)) (t : tables) :
  total_count (medicoes (ingest_all recs t))
  = total_count (medicoes t) + Z.of_nat (List.length recs).
Proof.
  revert t. induction recs as [|[k v] recs IH]; intro t.
  - simpl. lia.
  - unfold ingest_all in *. simpl fold_left. rewrite IH.
    rewrite ingest_unfold. simpl medicoes. rewrite total_count_dict_set.
    unfold count_of. simpl List.length. lia.
Qed.

Lemma ingested_length {db : UnicodeDB} (rows : list (result (list str))) :
  (List.length (ingested rows) <= List.length rows)%nat.
Proof.
  induction rows as [|[row|e] rows IH]; simpl; try lia.
  destruct (parse_row row); simpl; lia.
Qed.

(** X5.  The counts add up: when the first loop ends, with or without an
    error, the counts of all stations sum to the number of records ingested,
    which is at most the number of lines read. *)
Theorem counts_sum_to_the_records {db : UnicodeDB} (lines : list str) :
  total_count (medicoes (fst (load lines)))
  = Z.of_nat (List.length (ingested (reader lines))) /\
  (List.length (ingested (reader lines)) <= List.length lines)%nat.
Proof.
  split.
  - unfold load. rewrite for_rows_ingested, total_count_ingest_all. reflexivity.
  - pose proof (ingested_length (reader lines)) as H1.
    pose proof (Reader_iternext_length lines parse_reset) as H2.
    change (List.length (Reader_iternext parse_reset [])) with 0%nat in H2.
    fold (reader lines) in H2. lia.
Qed.

(** ** The first malformed line *)

Lemma for_rows_first_failure {db : UnicodeDB} (bad : str) (rest : list str)
    (t : tables) (e : exn) :
  closed_line bad -> parse_line bad = Raise e ->
  for_rows (reader (bad :: rest)) t = (t, Raise e).
Proof.
  intros Hclosed Hparse. unfold parse_line in Hparse.
  destruct (feed_line parse_reset bad) as [self|e'] eqn:Hfeed.
  - pose proof (Hclosed self Hfeed) as Hst.
    rewrite (reader_cons_whole bad [] self Hfeed Hst) in Hparse.
    rewrite (reader_cons_whole bad rest self Hfeed Hst).
    simpl. unfold process_row. now rewrite Hparse.
  - unfold reader in *. simpl in *. rewrite Hfeed in *.
    injection Hparse as ->. reflexivity.
Qed.

Lemma for_rows_reader_abort {db : UnicodeDB} (good rest : list str) (bad : str)
    (t0 t : tables) (e : exn) :
  Forall whole_record good ->
  for_rows (reader good) t0 = (t, Ok tt) ->
  closed_line bad -> parse_line bad = Raise e ->
  for_rows (reader (good ++ bad :: rest)) t0 = (t, Raise e).
Proof.
  intros Hgood Hrun Hclosed Hparse. unfold reader in *.
  rewrite (Reader_iternext_whole good (bad :: rest) Hgood).
  rewrite (for_rows_app _ _ _ _ Hrun).
  now apply for_rows_first_failure.
Qed.

(** X6.  The function stops at the first line the parse step rejects: the
    error of that line is raised whatever lines follow it, none of which is
    read, and the tables hold the records of the lines before it only. *)
Theorem lines_after_the_first_failure_are_not_read {db : UnicodeDB}
    (good rest : list str) (bad : str) (t : tables) (e : exn) :
  Forall whole_record good ->
  load good = (t, Ok tt) ->
  closed_line bad -> parse_line bad = Raise e ->
  load (good ++ bad :: rest) = (t, Raise e) /\
  processar_temperaturas (good ++ bad :: rest) = Raise e.
Proof.
  intros Hgood Hload Hclosed Hparse.
  assert (H : load (good ++ bad :: rest) = (t, Raise e)).
  { unfold load in *. now apply for_rows_reader_abort. }
  split; [exact H|]. unfold processar_temperaturas. now rewrite H.
Qed.

Lemma lines_after_the_first_failure_are_not_read_witness :
  @load ascii_db ([lit "A;10.0" ++ LF] ++ (lit "B;x" ++ LF) :: [lit "C;1.0" ++ LF])
  = (fst (@load ascii_db [lit "A;10.0" ++ LF]), Raise ValueError) /\
  @processar_temperaturas ascii_db
    ([lit "A;10.0" ++ LF] ++ (lit "B;x" ++ LF) :: [lit "C;1.0" ++ LF])
  = Raise ValueError.
Proof.
  apply (@lines_after_the_first_failure_are_not_read ascii_db).
  - repeat constructor. eexists. split; reflexivity.
  - reflexivity.
  - intros self H. vm_compute in H. injection H as <-. reflexivity.
  - reflexivity.
Defined.

Lemma blank_line_is_rejected {db : UnicodeDB} (blank : str) :
  terminator blank -> closed_line blank /\ parse_line blank = Raise IndexError.
Proof.
  intro Ht.
  assert (Hfeed : feed_line parse_reset blank = Ok parse_reset).
  { unfold feed_line. apply (feed_terminator_empty blank Ht). }
  split.
  - intros self H. rewrite Hfeed in H. now injection H as <-.
  - unfold parse_line.
    now rewrite (reader_cons_whole blank [] parse_reset Hfeed eq_refl).
Qed.

(** X7.  A blank line (an empty line, or carriage returns and line feeds
    alone) anywhere after well-formed lines makes the function raise
    [IndexError]: the reader gives it as an empty row, of which the loop reads
    the first field. *)
Theorem blank_line_raises_IndexError {db : UnicodeDB}
    (good rest : list str) (blank : str) (t : tables) :
  Forall whole_record good ->
  load good = (t, Ok tt) ->
  terminator blank ->
  processar_temperaturas (good ++ blank :: rest) = Raise IndexError.
Proof.
  intros Hgood Hload Ht.
  destruct (blank_line_is_rejected blank Ht) as [Hclosed Hparse].
  unfold processar_temperaturas, load in *.
  now rewrite (for_rows_reader_abort good rest blank _ t IndexError Hgood Hload Hclosed Hparse).
Qed.

Lemma blank_line_raises_IndexError_witness :
  @processar_temperaturas ascii_db ([lit "A;10.0" ++ LF] ++ LF :: [lit "B;1.0" ++ LF])
  = Raise IndexError.
Proof.
  apply (@blank_line_raises_IndexError ascii_db [lit "A;10.0" ++ LF] [lit "B;1.0" ++ LF] LF
           (fst (@load ascii_db [lit "A;10.0" ++ LF]))).
  - repeat constructor. eexists. split; reflexivity.
  - reflexivity.
  - repeat constructor.
Defined.

(** ** Line terminators and quoted stations *)

(** X8.  How a line ends does not matter: a line without quote characters
    gives the same record, or the same error, whether it ends with a line
    feed, with a carriage return and a line feed, or (the last line of a file)
    with nothing. *)
Theorem line_terminator_does_not_matter {db : UnicodeDB} (body term1 term2 : str) :
  plain body -> terminator term1 -> terminator term2 ->
  Z.of_nat (List.length body) <= field_limit ->
  parse_line (body ++ term1) = parse_line (body ++ term2).
Proof.
  intros Hplain Ht1 Ht2 Hlen.
  rewrite (parse_line_plain body term1 Hplain Ht1 Hlen).
  rewrite (parse_line_plain body term2 Hplain Ht2 Hlen).
  reflexivity.
Qed.

Lemma line_terminator_does_not_matter_witness :
  @parse_line ascii_db (lit "A;10.0" ++ [13; 10]) = @parse_line ascii_db (lit "A;10.0" ++ []).
Proof.
  apply (@line_terminator_does_not_matter ascii_db).
  - solve_plain.
  - repeat constructor.
  - constructor.
  - unfold field_limit. simpl. lia.
Defined.

(** Inside a quoted field every character but the quote joins the field. *)
Lemma feed_chars_quoted (s : str) (self : ReaderObj) :
  state self = IN_QUOTED_FIELD ->
  Forall (fun c => c <> quotechar) s ->
  Z.of_nat (List.length (field self) + List.length s) <= field_limit ->
  feed_chars self s
  = Ok {| fields := fields self; state := IN_QUOTED_FIELD; field := field self ++ s |}.
Proof.
  revert self. induction s as [|c s IH]; intros self Hst Hq Hlen.
  - simpl. rewrite app_nil_r. destruct self. simpl in Hst. now subst.
  - inversion Hq as [|? ? Hc Hq']; subst. apply Z.eqb_neq in Hc.
    simpl List.length in Hlen. simpl feed_chars.
    unfold parse_process_char. rewrite Hst, Hc.
    rewrite parse_add_char_ok by lia. rewrite IH.
    + simpl. now rewrite <- app_assoc.
    + exact Hst.
    + exact Hq'.
    + simpl. rewrite length_app. simpl. lia.
Qed.

Lemma reader_quoted_key (k body term : str) :
  Forall (fun c => c <> quotechar) k -> plain body -> terminator term ->
  Z.of_nat (List.length k) <= field_limit ->
  Z.of_nat (List.length body) <= field_limit ->
  reader [[quotechar] ++ k ++ [quotechar; delimiter] ++ body ++ term]
  = [Ok (k :: split_fields [] [] body)].
Proof.
  intros Hk Hbody Ht Hlk Hlb.
  assert (Hfeed : feed_line parse_reset
                    ([quotechar] ++ k ++ [quotechar; delimiter] ++ body ++ term)
                  = Ok {| fields := k :: split_fields [] [] body;
                          state := START_RECORD; field := [] |}).
  { unfold feed_line. rewrite feed_chars_app.
    change (feed_chars parse_reset [quotechar])
      with (Ok {| fields := []; state := IN_QUOTED_FIELD; field := [] |}).
    cbv beta iota. rewrite feed_chars_app.
    rewrite (feed_chars_quoted k) by (trivial; simpl; lia).
    cbv beta iota. rewrite feed_chars_app. cbn [fields field app].
    change (feed_chars {| fields := []; state := IN_QUOTED_FIELD; field := k |}
              [quotechar; delimiter])
      with (Ok {| fields := [k]; state := START_FIELD; field := [] |}).
    cbv beta iota. rewrite feed_chars_app.
    destruct (feed_chars_plain body {| fields := [k]; state := START_FIELD; field := [] |}
                Hbody) as (self' & -> & Hun & Hsplit).
    - right. auto.
    - simpl. lia.
    - rewrite (feed_terminator term self' Ht Hun). rewrite Hsplit. simpl fields.
      simpl field. now rewrite (split_fields_prefix body [k] []). }
  unfold reader. cbn [Reader_iternext]. rewrite Hfeed. reflexivity.
Qed.

(** X9.  A station may be written between double quotes, and may then hold the
    delimiter: the line ["k";v] gives the record of the text [k] between the
    quotes, whatever it holds but a quote, and of the value of [v]. *)
Theorem quoted_station_may_hold_the_delimiter {db : UnicodeDB} (k value term : str) :
  Forall (fun c => c <> quotechar) k ->
  plain value -> ~ In delimiter value -> terminator term ->
  Z.of_nat (List.length k) <= field_limit ->
  Z.of_nat (List.length value) <= field_limit ->
  parse_line ([quotechar] ++ k ++ [quotechar; delimiter] ++ value ++ term)
  = match float_of_str value with
    | Ok v => Ok (k, v)
    | Raise e => Raise e
    end.
Proof.
  intros Hk Hv Hnv Ht Hlk Hlv. unfold parse_line.
  rewrite (reader_quoted_key k value term Hk Hv Ht Hlk Hlv).
  rewrite split_fields_cut, (before_delim_none value Hnv).
  unfold parse_row, getitem. cbn [nth_error app].
  destruct (float_of_str value); reflexivity.
Qed.

Lemma quoted_station_may_hold_the_delimiter_witness :
  @parse_line ascii_db ([quotechar] ++ lit "A;B" ++ [quotechar; delimiter] ++ lit "1.0" ++ LF)
  = match @float_of_str ascii_db (lit "1.0") with
    | Ok v => Ok (lit "A;B", v)
    | Raise e => Raise e
    end.
Proof.
  apply (@quoted_station_may_hold_the_delimiter ascii_db).
  - repeat (constructor; [discriminate|]). constructor.
  - solve_plain.
  - solve_no_delim.
  - repeat constructor.
  - unfold field_limit. simpl. lia.
  - unfold field_limit. simpl. lia.
Defined.

(** ** The entries of the output *)

Lemma dict_get_In_key {V : Type} (k : str) (v : V) (d : dict V) :
  dict_get k d = Some v -> In (k, v) d.
Proof.
  induction d as [|[k0 v0] d IH]; simpl; [discriminate|].
  destruct (str_eqb k k0) eqn:E.
  - apply str_eqb_eq in E. subst k0. intros [= ->]. now left.
  - intro H. right. now apply IH.
Qed.

Lemma In_dict_get {V : Type} (k : str) (v : V) (d : dict V) :
  NoDup (keys d) -> In (k, v) d -> dict_get k d = Some v.
Proof.
  induction d as [|[k0 v0] d IH]; simpl; intros Hnd Hin; [destruct Hin|].
  inversion Hnd as [|? ? Hk0 Hnd']; subst.
  destruct Hin as [[= -> ->]|Hin].
  - now rewrite str_eqb_refl.
  - destruct (str_eqb k k0) eqn:E; [|now apply IH].
    apply str_eqb_eq in E. subst k0. exfalso. apply Hk0.
    unfold keys. apply in_map_iff. now exists (k, v).
Qed.

Lemma dict_get_None {V : Type} (k : str) (d : dict V) :
  dict_get k d = None <-> ~ In k (keys d).
Proof.
  induction d as [|[k0 v0] d IH]; simpl; [tauto|].
  destruct (str_eqb k k0) eqn:E.
  - apply str_eqb_eq in E. subst k0. split; [discriminate|]. intro H. exfalso. auto.
  - apply str_eqb_neq in E. rewrite IH. split; intro H; [|tauto].
    intros [H1|H1]; [now subst|tauto].
Qed.

(** Reading a dictionary does not depend on the order of its items. *)
Lemma dict_get_reordered {V : Type} (k : str) (d d' : dict V) :
  NoDup (keys d) -> Permutation d d' -> dict_get k d = dict_get k d'.
Proof.
  intros Hnd Hperm.
  assert (Hnd' : NoDup (keys d')).
  { unfold keys in *. eapply Permutation_NoDup; [|exact Hnd]. now apply Permutation_map. }
  destruct (dict_get k d) as [v|] eqn:E.
  - symmetry. apply In_dict_get; [exact Hnd'|].
    apply (Permutation_in _ Hperm). now apply dict_get_In_key.
  - destruct (dict_get k d') as [v|] eqn:E'; [|reflexivity].
    apply dict_get_In_key in E'.
    apply (Permutation_in _ (Permutation_sym Hperm)) in E'.
    apply (In_dict_get _ _ _ Hnd) in E'. congruence.
Qed.

Lemma dict_get_format (k : str) (l : dict (float * float * float)) :
  dict_get k (map format_item l)
  = match dict_get k l with
    | Some (lo, mean, hi) => Some (format_1f lo ++ [47] ++ format_1f mean ++ [47] ++ format_1f hi)
    | None => None
    end.
Proof.
  induction l as [|[k0 [[a b] c]] l IH]; simpl; [reflexivity|].
  destruct (str_eqb k k0); [reflexivity|exact IH].
Qed.

(** A read of a [defaultdict] may add a key, but changes no answer. *)
Lemma defaultdict_read_again {V : Type} (dv : V) (k k' : str) (d : dict V) :
  fst (defaultdict_getitem dv k (snd (defaultdict_getitem dv k' d)))
  = fst (defaultdict_getitem dv k d).
Proof.
  rewrite !fst_defaultdict_getitem. unfold defaultdict_getitem.
  destruct (dict_get k' d) eqn:E'; simpl; [reflexivity|].
  destruct (str_eqb k k') eqn:E.
  - apply str_eqb_eq in E. subst k'. now rewrite dict_get_set_same, E'.
  - apply str_eqb_neq in E. now rewrite dict_get_set_other.
Qed.

(** The second loop, entry by entry: each station of [items] gets the minimum,
    the quotient of the sum by the count and the maximum that the tables
    answered before the loop. *)
Lemma compute_results_entries (t : tables) (items : list (str * Z)) (t' : tables)
    (results r : dict (float * float * float)) :
  compute_results items t' results = Ok r ->
  (forall k, min_of k t' = min_of k t) ->
  (forall k, max_of k t' = max_of k t) ->
  (forall k, sum_of k t' = sum_of k t) ->
  NoDup (map fst items) ->
  (forall k q, In (k, q) items ->
     exists mean, float_truediv_int (sum_of k t) q = Ok mean /\
                  dict_get k r = Some (min_of k t, mean, max_of k t)) /\
  (forall k, ~ In k (map fst items) -> dict_get k r = dict_get k results).
Proof.
  revert t' results. induction items as [|[station qtd] items IH];
    intros t' results Hrun Hlo Hhi Hs Hnd.
  - simpl in Hrun. injection Hrun as <-. split; [intros k q []|reflexivity].
  - cbn [compute_results] in Hrun.
    pose proof (Hs station) as Hs1. pose proof (Hlo station) as Hlo1.
    pose proof (Hhi station) as Hhi1. unfold sum_of, min_of, max_of in Hs1, Hlo1, Hhi1.
    destruct (defaultdict_getitem zero station (somas t')) as [total somas'] eqn:Es.
    destruct (float_truediv_int total qtd) as [mean_temp|e] eqn:Ediv; [|discriminate].
    destruct (defaultdict_getitem inf station (minimas t')) as [lo minimas'] eqn:Elo.
    destruct (defaultdict_getitem neg_inf station (maximas t')) as [hi maximas'] eqn:Ehi.
    simpl in Hs1, Hlo1, Hhi1.
    inversion Hnd as [|? ? Hfresh Hnd']; subst.
    apply IH in Hrun; [| | | |exact Hnd'].
    + destruct Hrun as [Hin Hout]. split.
      * intros k q [[= <- <-]|Hk]; [|now apply Hin].
        exists mean_temp. split; [exact Ediv|].
        rewrite (Hout _ Hfresh). apply dict_get_set_same.
      * intros k Hk. simpl in Hk. rewrite Hout by tauto.
        apply dict_get_set_other. intro Heq. apply Hk. now left.
    + intro k. rewrite <- Hlo. unfold min_of. simpl.
      replace minimas' with (snd (defaultdict_getitem inf station (minimas t')))
        by now rewrite Elo.
      apply defaultdict_read_again.
    + intro k. rewrite <- Hhi. unfold max_of. simpl.
      replace maximas' with (snd (defaultdict_getitem neg_inf station (maximas t')))
        by now rewrite Ehi.
      apply defaultdict_read_again.
    + intro k. rewrite <- Hs. unfold sum_of. simpl.
      replace somas' with (snd (defaultdict_getitem zero station (somas t')))
        by now rewrite Es.
      apply defaultdict_read_again.
Qed.

Lemma NoDup_keys_ingest_all (recs : list (str * float)) (t : tables) :
  NoDup (keys (medicoes t)) -> NoDup (keys (medicoes (ingest_all recs t))).
Proof.
  revert t. induction recs as [|[k v] recs IH]; intros t Hnd; [exact Hnd|].
  unfold ingest_all in *. simpl fold_left. apply IH.
  rewrite ingest_unfold. simpl medicoes. now apply NoDup_keys_dict_set.
Qed.

Lemma NoDup_keys_load {db : UnicodeDB} (lines : list str) :
  NoDup (keys (medicoes (fst (load lines)))).
Proof.
  unfold load. rewrite for_rows_ingested. apply NoDup_keys_ingest_all. constructor.
Qed.


(** The dictionary of results against the tables the second loop started
    from. *)
Lemma snapshot_entries (t : tables) (results : dict (float * float * float)) (k : str) :
  NoDup (keys (medicoes t)) -> snapshot t = Ok results ->
  match dict_get k (medicoes t) with
  | Some q =>
      exists mean, float_truediv_int (sum_of k t) q = Ok mean /\
                   dict_get k results = Some (min_of k t, mean, max_of k t)
  | None => dict_get k results = None
  end.
Proof.
  intros Hnd Hsnap. unfold snapshot in Hsnap.
  destruct (compute_results_entries t _ _ _ _ Hsnap) as [Hin Hout]; auto.
  destruct (dict_get k (medicoes t)) as [q|] eqn:E.
  - apply dict_get_In_key in E. exact (Hin k q E).
  - apply dict_get_None in E. now rewrite (Hout k E).
Qed.

Lemma snapshot_keys (t : tables) (results : dict (float * float * float)) :
  NoDup (keys (medicoes t)) -> snapshot t = Ok results ->
  NoDup (keys results) /\ Permutation (keys results) (keys (medicoes t)).
Proof.
  intros Hnd Hsnap.
  destruct (compute_results_keys _ _ _ _ Hsnap (NoDup_nil _)) as [Hndr _].
  split; [exact Hndr|].
  apply NoDup_Permutation; [exact Hndr|exact Hnd|].
  intro k. pose proof (snapshot_entries t results k Hnd Hsnap) as H.
  destruct (dict_get k (medicoes t)) as [q|] eqn:E.
  - destruct H as (mean & _ & Hget). split; intros _.
    + apply dict_get_In_key in E. unfold keys. apply in_map_iff. now exists (k, q).
    + apply dict_get_In_key in Hget. unfold keys. apply in_map_iff.
      now exists (k, (min_of k t, mean, max_of k t)).
  - apply dict_get_None in E, H. tauto.
Qed.

(** The returned dictionary read at one station. *)
Lemma output_lookup {db : UnicodeDB} (lines : list str)
    (out : dict str) (k : str) :
  processar_temperaturas lines = Ok out ->
  let t := fst (load lines) in
  match dict_get k (medicoes t) with
  | Some q =>
      exists mean,
        float_truediv_int (sum_of k t) q = Ok mean /\
        dict_get k out
        = Some (format_1f (min_of k t) ++ [47] ++ format_1f mean ++ [47]
                ++ format_1f (max_of k t))
  | None => dict_get k out = None
  end.
Proof.
  intros Hrun t. pose proof (NoDup_keys_load lines) as Hnd. fold t in Hnd.
  unfold processar_temperaturas in Hrun. subst t.
  destruct (load lines) as [t [[]|e]]; [|discriminate]. simpl in *.
  destruct (snapshot t) as [results|e] eqn:Hsnap; [|discriminate].
  injection Hrun as <-.
  destruct (snapshot_keys t results Hnd Hsnap) as [Hndr _].
  destruct (sorted_spec results Hndr) as [_ Hperm].
  rewrite dict_get_format, <- (dict_get_reordered k _ _ Hndr Hperm).
  pose proof (snapshot_entries t results k Hnd Hsnap) as H.
  destruct (dict_get k (medicoes t)) as [q|].
  - destruct H as (mean & Hdiv & Hget).
    exists mean. split; [exact Hdiv|]. now rewrite Hget.
  - now rewrite H.
Qed.

(** X10.  The value of a station in the returned dictionary: the minimum, the
    sum divided by the count, and the maximum that the tables hold for the
    station when the first loop has ended, each formatted with one decimal and
    joined by slashes.  A station that was not counted has no entry. *)
Theorem output_entry_of_a_station {db : UnicodeDB} (lines : list str)
    (out : dict str) (k : str) :
  processar_temperaturas lines = Ok out ->
  let t := fst (load lines) in
  match dict_get k (medicoes t) with
  | Some q =>
      exists mean,
        float_truediv_int (sum_of k t) q = Ok mean /\
        dict_get k out
        = Some (format_1f (min_of k t) ++ [47] ++ format_1f mean ++ [47]
                ++ format_1f (max_of k t))
  | None => dict_get k out = None
  end.
Proof. apply output_lookup. Qed.

Lemma output_entry_of_a_station_witness :
  let lines := [lit "B;-5.5" ++ LF; lit "A;10.0" ++ LF; lit "A;20.5" ++ LF] in
  let out := [(lit "A", lit "10.0/15.2/20.5"); (lit "B", lit "-5.5/-5.5/-5.5")] in
  let t := fst (@load ascii_db lines) in
  match dict_get (lit "A") (medicoes t) with
  | Some q =>
      exists mean,
        float_truediv_int (sum_of (lit "A") t) q = Ok mean /\
        dict_get (lit "A") out
        = Some (format_1f (min_of (lit "A") t) ++ [47] ++ format_1f mean ++ [47]
                ++ format_1f (max_of (lit "A") t))
  | None => dict_get (lit "A") out = None
  end.
Proof.
  intros lines out.
  apply (@output_entry_of_a_station ascii_db lines out (lit "A")).
  reflexivity.
Defined.

(** X11.  The returned dictionary has one entry for each station ingested, no
    more and no less, and [main] prints one line for each entry, in the order
    of the dictionary: the station, a colon and a blank, and the value of the
    station. *)
Theorem output_has_one_entry_per_station {db : UnicodeDB} (lines : list str)
    (out : dict str) :
  processar_temperaturas lines = Ok out ->
  NoDup (keys out) /\
  Permutation (keys out) (first_seen (map fst (ingested (reader lines)))) /\
  exists printed,
    main lines = Ok printed /\
    Forall2 (fun it line => line = fst it ++ lit ": " ++ snd it) out printed.
Proof.
  intro Hrun.
  destruct (keys_ingest_all (ingested (reader lines)) empty_tables eq_refl eq_refl eq_refl)
    as [Hkeys _].
  change (keys (medicoes empty_tables)) with (@nil (list Z)) in Hkeys.
  fold (first_seen (map fst (ingested (reader lines)))) in Hkeys.
  rewrite <- for_rows_ingested in Hkeys. fold (load lines) in Hkeys.
  pose proof (NoDup_keys_load lines) as Hnd.
  assert (Hperm : Permutation (keys out) (keys (medicoes (fst (load lines))))).
  { unfold processar_temperaturas in Hrun.
    destruct (load lines) as [t [[]|e]]; [|discriminate]. simpl in *.
    destruct (snapshot t) as [results|e] eqn:Hsnap; [|discriminate].
    injection Hrun as <-. rewrite keys_format.
    destruct (snapshot_keys t results Hnd Hsnap) as [Hndr Hp].
    destruct (sorted_spec results Hndr) as [_ Hperm].
    rewrite <- Hp. unfold keys. apply Permutation_map. now symmetry. }
  split; [|split].
  - apply (Permutation_NoDup (Permutation_sym Hperm) Hnd).
  - now rewrite <- Hkeys.
  - unfold main. rewrite Hrun. eexists. split; [reflexivity|].
    clear. induction out as [|[station metrics] out IH]; simpl; constructor;
      [reflexivity|exact IH].
Qed.

Lemma output_has_one_entry_per_station_witness :
  let lines := [lit "B;-5.5" ++ LF; lit "A;10.0" ++ LF; lit "B;20.5" ++ LF] in
  let out := [(lit "A", lit "10.0/10.0/10.0"); (lit "B", lit "-5.5/7.5/20.5")] in
  NoDup (keys out) /\
  Permutation (keys out) (first_seen (map fst (@ingested ascii_db (reader lines)))) /\
  exists printed,
    @main ascii_db lines = Ok printed /\
    Forall2 (fun it line => line = fst it ++ lit ": " ++ snd it) out printed.
Proof.
  intros lines out.
  apply (@output_has_one_entry_per_station ascii_db lines out).
  reflexivity.
Defined.

(** ** The exceptions that leave the function *)










(** Where the environment raises nothing, the function is
    [processar_temperaturas] on the lines of the file. *)
Lemma processar_temperaturas_in_quiet {db : UnicodeDB} {E : Type} (lines : list str) :
  processar_temperaturas_in (mkWorld E None lines None None None None)
  = match processar_temperaturas lines with
    | Ok out => Returns out
    | Raise e => Raises (Program e)
    end.
Proof.
  unfold processar_temperaturas_in, first_loop, rows_of, processar_temperaturas, load.
  cbn [open_file read_stops close_file print_loaded print_computed file_lines].
  destruct (for_rows (reader lines) empty_tables) as [t [[]|e]]; [|reflexivity].
  destruct (snapshot t); reflexivity.
Qed.



(** ** The order of the records *)

Lemma values_of_reordered (k : str) (recs recs' : list (str * float)) :
  Permutation recs recs' -> Permutation (values_of k recs) (values_of k recs').
Proof.
  intro Hperm. unfold values_of.
  induction Hperm as [|x l l' _ IH|x y l|l1 l2 l3 _ IH1 _ IH2]; simpl.
  - constructor.
  - destruct (str_eqb (fst x) k); simpl; [now constructor|exact IH].
  - destruct (str_eqb (fst x) k), (str_eqb (fst y) k); simpl;
      first [ apply perm_swap | reflexivity ].
  - now transitivity (map snd (filter (fun r => str_eqb (fst r) k) l2)).
Qed.

Lemma py_min_inf_r (a : float) : py_min a inf = a.
Proof. unfold py_min. now destruct a as [[]|[]| |[] m e]. Qed.

Lemma py_max_neg_inf_r (a : float) : py_max a neg_inf = a.
Proof. unfold py_max. now destruct a as [[]|[]| |[] m e]. Qed.

(** X13.  The order in which the records arrive decides neither the count of a
    station nor, up to the equality of floats, its minimum and its maximum.
    (It may decide the sign of a zero, as in [min(0.0, -0.0)], and the sum.) *)
Theorem record_order_does_not_matter (recs recs' : list (str * float)) (k : str) :
  Permutation recs recs' ->
  let t := ingest_all recs empty_tables in
  let t' := ingest_all recs' empty_tables in
  count_of k t = count_of k t' /\
  float_eq (min_of k t) (min_of k t') = true /\
  float_eq (max_of k t) (max_of k t') = true.
Proof.
  intros Hperm t t'.
  pose proof (values_of_reordered k _ _ Hperm) as Hv.
  pose proof (state_of_ingest_all k recs empty_tables) as Hs.
  pose proof (state_of_ingest_all k recs' empty_tables) as Hs'.
  unfold state_of in Hs, Hs'. fold t in Hs. fold t' in Hs'.
  injection Hs as Hc Hlo Hhi _. injection Hs' as Hc' Hlo' Hhi' _.
  rewrite Hc, Hc', Hlo, Hlo', Hhi, Hhi'. split; [|split].
  - now rewrite (Permutation_length Hv).
  - rewrite <- (py_min_inf_r (fold_left py_min (values_of k recs) (min_of k empty_tables))).
    apply (merged_min_eq_any (values_of k recs) []).
    rewrite app_nil_r. now symmetry.
  - rewrite <- (py_max_neg_inf_r (fold_left py_max (values_of k recs) (max_of k empty_tables))).
    apply (merged_max_eq_any (values_of k recs) []).
    rewrite app_nil_r. now symmetry.
Qed.

Lemma record_order_does_not_matter_witness :
  let recs := [(lit "A", decimal_to_float false 100 (-1)); (lit "B", nan);
               (lit "A", decimal_to_float true 55 (-1))] in
  let recs' := [(lit "A", decimal_to_float true 55 (-1)); (lit "A", decimal_to_float false 100 (-1));
                (lit "B", nan)] in
  let t := ingest_all recs empty_tables in
  let t' := ingest_all recs' empty_tables in
  count_of (lit "A") t = count_of (lit "A") t' /\
  float_eq (min_of (lit "A") t) (min_of (lit "A") t') = true /\
  float_eq (max_of (lit "A") t) (max_of (lit "A") t') = true.
Proof.
  intros recs recs'.
  apply (record_order_does_not_matter recs recs' (lit "A")).
  unfold recs, recs'.
  apply Permutation_sym, (Permutation_cons_app [_; _] []). reflexivity.
Defined.

(** ** The shape of the formatted statistics *)

Lemma uint_digits_chars (u : Decimal.uint) : Forall digit_char (uint_digits u).
Proof. induction u; simpl; constructor; try assumption; unfold digit_char; lia. Qed.

Lemma decimal_digits_nonempty (n : Z) : decimal_digits n <> [].
Proof.
  unfold decimal_digits. destruct (Z.to_N n) as [|p]; simpl; [discriminate|].
  pose proof (DecimalPos.Unsigned.to_uint_nonnil p) as H.
  destruct (Pos.to_uint p); simpl; try discriminate. now contradict H.
Qed.

Lemma decimal_digits_one (r : Z) :
  0 <= r < 10 -> exists d, decimal_digits r = [d] /\ digit_char d.
Proof.
  intro Hr. unfold digit_char.
  assert (H : r = 0 \/ r = 1 \/ r = 2 \/ r = 3 \/ r = 4 \/ r = 5 \/ r = 6 \/ r = 7
              \/ r = 8 \/ r = 9) by lia.
  repeat destruct H as [->|H]; try subst r;
    (eexists; split; [reflexivity|lia]).
Qed.

Lemma format_1f_shape (x : float) :
  one_decimal (format_1f x) \/ In (format_1f x) [lit "nan"; lit "inf"; lit "-inf"].
Proof.
  destruct x as [s|s| |s m e].
  - left. destruct s; [exists [45]|exists []]; exists [48], 48; simpl;
      repeat split; auto; try discriminate; try (repeat constructor; unfold digit_char; lia);
      unfold digit_char; lia.
  - right. destruct s; simpl; tauto.
  - right. simpl. tauto.
  - left. cbn [format_1f].
    destruct (decimal_digits_one (tenths m e mod 10)) as (d & Hd & Hdc).
    { apply Z.mod_pos_bound. lia. }
    exists (if s then [45] else []), (decimal_digits (tenths m e / 10)), d.
    rewrite Hd. repeat split.
    + destruct s; auto.
    + apply decimal_digits_nonempty.
    + apply uint_digits_chars.
    + apply Hdc.
    + apply Hdc.
Qed.

(** X14.  Every value of the returned dictionary is made of three numbers
    joined by two slashes, and each number is written with exactly one decimal
    (an optional minus sign, digits, a point, one digit) unless it is one of
    [nan], [inf] and [-inf]. *)
Theorem output_values_are_three_numbers {db : UnicodeDB} (lines : list str) (out : dict str) :
  processar_temperaturas lines = Ok out ->
  Forall (fun it =>
    exists a b c,
      snd it = a ++ [47] ++ b ++ [47] ++ c /\
      Forall (fun s => one_decimal s \/ In s [lit "nan"; lit "inf"; lit "-inf"]) [a; b; c])
    out.
Proof.
  intro Hrun. unfold processar_temperaturas in Hrun.
  destruct (load lines) as [t [[]|e]]; [|discriminate].
  destruct (snapshot t) as [results|e]; [|discriminate].
  injection Hrun as <-. apply Forall_forall. intros it Hin.
  apply in_map_iff in Hin as [[k [[lo mean] hi]] [<- _]].
  exists (format_1f lo), (format_1f mean), (format_1f hi).
  split; [reflexivity|].
  repeat (apply Forall_cons; [apply format_1f_shape|]). constructor.
Qed.

Lemma output_values_are_three_numbers_witness :
  let out := [(lit "A", lit "10.0/nan/20.5"); (lit "B", lit "-5.5/-5.5/-5.5")] in
  Forall (fun it =>
    exists a b c,
      snd it = a ++ [47] ++ b ++ [47] ++ c /\
      Forall (fun s => one_decimal s \/ In s [lit "nan"; lit "inf"; lit "-inf"]) [a; b; c])
    out.
Proof.
  intro out.
  apply (@output_values_are_three_numbers ascii_db
           [lit "B;-5.5" ++ LF; lit "A;10.0" ++ LF; lit "A;nan" ++ LF; lit "A;20.5" ++ LF] out).
  reflexivity.
Defined.

(** ** A reading that is alone under its station *)

Lemma float_of_str_ascii {db : UnicodeDB} (s : str) :
  forallb (fun c => c <? 128) s = true -> float_of_str s = @float_of_str ascii_db s.
Proof.
  intro H. unfold float_of_str, _PyUnicode_TransformDecimalAndSpaceToASCII.
  now rewrite H.
Qed.

(** Every reading from -99.9 to 99.9 with one decimal, checked one by one. *)
Lemma printed_back_range (n : Z) : -999 <= n <= 999 -> printed_back n = true.
Proof.
  intro Hn.
  assert (Hall : forallb printed_back (map (fun i => Z.of_nat i - 999) (seq 0 1999)) = true)
    by (vm_compute; reflexivity).
  rewrite forallb_forall in Hall. apply Hall.
  apply in_map_iff. exists (Z.to_nat (n + 999)). split; [lia|].
  apply in_seq. lia.
Qed.

Lemma count_of_one (k : str) (t : tables) :
  count_of k t = 1 -> dict_get k (medicoes t) = Some 1.
Proof.
  unfold count_of. destruct (dict_get k (medicoes t)); [now intros ->|discriminate].
Qed.

(** X15.  Parsing and formatting agree on the data of the challenge: when a
    station has one reading only, written with one decimal between -99.9 and
    99.9, its entry in the returned dictionary is that very text three times,
    as minimum, mean and maximum. *)
Theorem single_reading_is_printed_back {db : UnicodeDB} (lines : list str)
    (out : dict str) (k : str) (n : Z) (x : float) :
  processar_temperaturas lines = Ok out ->
  -999 <= n <= 999 ->
  float_of_str (tenths_text n) = Ok x ->
  values_of k (ingested (reader lines)) = [x] ->
  dict_get k out = Some (tenths_text n ++ [47] ++ tenths_text n ++ [47] ++ tenths_text n).
Proof.
  intros Hrun Hn Hx Hvals.
  pose proof (printed_back_range n Hn) as Hback. unfold printed_back in Hback.
  cbv zeta in Hback. apply andb_prop in Hback as [Hascii Hback].
  rewrite (float_of_str_ascii _ Hascii) in Hx. rewrite Hx in Hback.
  pose proof (output_lookup lines out k Hrun) as Hout. cbv zeta in Hout.
  pose proof (state_of_ingest_all k (ingested (reader lines)) empty_tables) as Hs.
  rewrite <- for_rows_ingested in Hs. fold (load lines) in Hs.
  rewrite Hvals in Hs.
  assert (Hc : count_of k (fst (load lines)) = 1) by exact (f_equal agg_count Hs).
  assert (Hlo : min_of k (fst (load lines)) = py_min inf x) by exact (f_equal agg_min Hs).
  assert (Hhi : max_of k (fst (load lines)) = py_max neg_inf x) by exact (f_equal agg_max Hs).
  assert (Hsum : sum_of k (fst (load lines)) = float_add zero x)
    by exact (f_equal agg_sum Hs).
  rewrite (count_of_one _ _ Hc), Hlo, Hhi, Hsum in Hout.
  destruct Hout as (mean & Hdiv & Hget). rewrite Hdiv in Hback.
  apply andb_prop in Hback as [Hback H3]. apply andb_prop in Hback as [H1 H2].
  apply str_eqb_eq in H1, H2, H3. rewrite Hget. now rewrite H1, H2, H3.
Qed.

Lemma single_reading_is_printed_back_witness :
  dict_get (lit "B") [(lit "A", lit "10.0/15.2/20.5"); (lit "B", lit "-5.5/-5.5/-5.5")]
  = Some (tenths_text (-55) ++ [47] ++ tenths_text (-55) ++ [47] ++ tenths_text (-55)).
Proof.
  apply (@single_reading_is_printed_back ascii_db
           [lit "B;-5.5" ++ LF; lit "A;10.0" ++ LF; lit "A;20.5" ++ LF]
           _ (lit "B") (-55) (decimal_to_float true 55 (-1))).
  - reflexivity.
  - lia.
  - reflexivity.
  - reflexivity.
Defined.

(** ** A record over two lines *)

Lemma after_delim_none (s : str) : ~ In delimiter s -> after_delim s = None.
Proof.
  induction s as [|c s IH]; simpl; [reflexivity|]. intro H.
  destruct (Z.eqb_spec c delimiter) as [->|_]; [exfalso; auto|]. apply IH. tauto.
Qed.

Lemma feed_line_opens_quote (k1 : str) :
  Forall (fun c => c <> quotechar) k1 ->
  Z.of_nat (List.length k1) <= field_limit ->
  feed_line parse_reset ([quotechar] ++ k1)
  = Ok {| fields := []; state := IN_QUOTED_FIELD; field := k1 |}.
Proof.
  intros Hk Hlen. unfold feed_line. rewrite feed_chars_app.
  change (feed_chars parse_reset [quotechar])
    with (Ok {| fields := []; state := IN_QUOTED_FIELD; field := [] |}).
  cbv beta iota. rewrite (feed_chars_quoted k1) by (trivial; simpl; lia).
  reflexivity.
Qed.

Lemma feed_line_closes_quote (k1 k2 body term : str) :
  Forall (fun c => c <> quotechar) k2 -> plain body -> terminator term ->
  Z.of_nat (List.length k1 + List.length k2) <= field_limit ->
  Z.of_nat (List.length body) <= field_limit ->
  feed_line {| fields := []; state := IN_QUOTED_FIELD; field := k1 |}
    (k2 ++ [quotechar; delimiter] ++ body ++ term)
  = Ok {| fields := (k1 ++ k2) :: split_fields [] [] body;
          state := START_RECORD; field := [] |}.
Proof.
  intros Hk Hbody Ht Hlk Hlb. unfold feed_line. rewrite feed_chars_app.
  rewrite (feed_chars_quoted k2) by (trivial; simpl; lia).
  cbv beta iota. rewrite feed_chars_app. cbn [fields field].
  change (feed_chars {| fields := []; state := IN_QUOTED_FIELD; field := k1 ++ k2 |}
            [quotechar; delimiter])
    with (Ok {| fields := [k1 ++ k2]; state := START_FIELD; field := [] |}).
  cbv beta iota. rewrite feed_chars_app.
  destruct (feed_chars_plain body
              {| fields := [k1 ++ k2]; state := START_FIELD; field := [] |} Hbody)
    as (self' & -> & Hun & Hsplit).
  - right. auto.
  - simpl. lia.
  - rewrite (feed_terminator term self' Ht Hun). rewrite Hsplit. simpl fields.
    simpl field. now rewrite (split_fields_prefix body [k1 ++ k2] []).
Qed.

(** X16.  A line is not always a record: a station opened with a double quote
    and not closed on its line goes on over the next line, line terminator
    included, and the two lines give one row.  The loop ingests one record for
    them, under the station made of both parts. *)
Theorem quoted_station_may_span_two_lines {db : UnicodeDB}
    (k1 k2 value term : str) (rest : list str) :
  Forall (fun c => c <> quotechar) k1 -> Forall (fun c => c <> quotechar) k2 ->
  plain value -> ~ In delimiter value -> terminator term ->
  Z.of_nat (List.length k1 + List.length k2) <= field_limit ->
  Z.of_nat (List.length value) <= field_limit ->
  reader (([quotechar] ++ k1) :: (k2 ++ [quotechar; delimiter] ++ value ++ term) :: rest)
  = Ok [k1 ++ k2; value] :: reader rest /\
  load (([quotechar] ++ k1) :: (k2 ++ [quotechar; delimiter] ++ value ++ term) :: rest)
  = match float_of_str value with
    | Ok v => for_rows (reader rest) (ingest (k1 ++ k2) v empty_tables)
    | Raise e => (empty_tables, Raise e)
    end.
Proof.
  intros Hk1 Hk2 Hv Hnv Ht Hlk Hlv.
  assert (Hreader :
    reader (([quotechar] ++ k1) :: (k2 ++ [quotechar; delimiter] ++ value ++ term) :: rest)
    = Ok [k1 ++ k2; value] :: reader rest).
  { unfold reader. cbn [Reader_iternext].
    rewrite (feed_line_opens_quote k1 Hk1) by lia. cbn [state ParserState_eqb].
    rewrite (feed_line_closes_quote k1 k2 value term Hk2 Hv Ht Hlk Hlv).
    cbn [state ParserState_eqb fields].
    now rewrite split_fields_cut, (before_delim_none value Hnv), (after_delim_none value Hnv). }
  split; [exact Hreader|].
  unfold load. rewrite Hreader. cbn [for_rows]. unfold process_row, parse_row, getitem.
  cbn [nth_error]. destruct (float_of_str value) as [v|e]; [|reflexivity].
  destruct (for_rows (reader rest) (ingest (k1 ++ k2) v empty_tables)) as [t' [[]|e]]; reflexivity.
Qed.

Lemma quoted_station_may_span_two_lines_witness :
  let l1 := [quotechar] ++ lit "New" ++ LF in
  let l2 := lit "York" ++ [quotechar; delimiter] ++ lit "1.0" ++ LF in
  reader [l1; l2] = Ok [(lit "New" ++ LF) ++ lit "York"; lit "1.0"] :: reader [] /\
  @load ascii_db [l1; l2]
  = match @float_of_str ascii_db (lit "1.0") with
    | Ok v => @for_rows ascii_db (reader []) (ingest ((lit "New" ++ LF) ++ lit "York") v empty_tables)
    | Raise e => (empty_tables, Raise e)
    end.
Proof.
  intros l1 l2.
  apply (@quoted_station_may_span_two_lines ascii_db (lit "New" ++ LF) (lit "York")
           (lit "1.0") LF []).
  - repeat (constructor; [discriminate|]). constructor.
  - repeat (constructor; [discriminate|]). constructor.
  - solve_plain.
  - solve_no_delim.
  - repeat constructor.
  - unfold field_limit. simpl. lia.
  - unfold field_limit. simpl. lia.
Defined.

(** ** Blanks around the reading *)

Lemma lstrip_blanks (ws s : str) :
  Forall (fun c => Py_ISSPACE c = true) ws -> lstrip (ws ++ s) = lstrip s.
Proof.
  induction 1 as [|c ws Hc _ IH]; [reflexivity|].
  cbn [app lstrip]. now rewrite Hc.
Qed.

Lemma lstrip_app_blanks (s ws : str) :
  Forall (fun c => Py_ISSPACE c = true) ws ->
  lstrip (s ++ ws) = match lstrip s with [] => [] | s1 => s1 ++ ws end.
Proof.
  intro Hws. induction s as [|c s IH].
  - simpl. rewrite <- (app_nil_r ws) at 1. now rewrite lstrip_blanks.
  - cbn [app lstrip]. destruct (Py_ISSPACE c); [exact IH|reflexivity].
Qed.

Lemma rstrip1_app_blanks (s ws : str) :
  Forall (fun c => Py_ISSPACE c = true) ws -> rstrip1 (s ++ ws) = rstrip1 s.
Proof.
  intro Hws. induction s as [|c s IH].
  - simpl. induction Hws as [|c ws Hc _ IH]; [reflexivity|].
    cbn [rstrip1]. now rewrite IH, Hc.
  - cbn [app rstrip1]. now rewrite IH.
Qed.

Lemma transform_chars_blanks (ws s : str) :
  Forall (fun c => Py_ISSPACE c = true) ws ->
  forall db : UnicodeDB, transform_chars (ws ++ s) = ws ++ transform_chars s.
Proof.
  intros Hws db. induction Hws as [|c ws Hc _ IH]; [reflexivity|].
  cbn [app transform_chars]. rewrite IH.
  destruct (Z.ltb_spec c 127) as [_|Hge]; [reflexivity|].
  unfold Py_ISSPACE in Hc. lia.
Qed.

Lemma transform_chars_app_blanks {db : UnicodeDB} (s ws : str) :
  Forall (fun c => Py_ISSPACE c = true) ws ->
  transform_chars (s ++ ws) = transform_chars s ++ ws \/
  transform_chars (s ++ ws) = transform_chars s.
Proof.
  intro Hws. induction s as [|c s IH].
  - left. simpl. rewrite <- (app_nil_r ws) at 1.
    rewrite (transform_chars_blanks ws [] Hws). simpl. apply app_nil_r.
  - cbn [app transform_chars].
    destruct (c <? 127); [destruct IH as [->| ->]; auto|].
    destruct (Py_UNICODE_ISSPACE c); [destruct IH as [->| ->]; auto|].
    destruct (Py_UNICODE_TODECIMAL c <? 0); [now right|].
    destruct IH as [->| ->]; auto.
Qed.

Lemma blanks_ascii (ws : str) :
  Forall (fun c => Py_ISSPACE c = true) ws -> forallb (fun c => c <? 128) ws = true.
Proof.
  intro H. apply forallb_forall. intros c Hc.
  rewrite Forall_forall in H. specialize (H c Hc). unfold Py_ISSPACE in H. lia.
Qed.

(** What [float] makes of a text after the characters were transformed. *)
Lemma strip_blanks (ws1 s ws2 : str) :
  Forall (fun c => Py_ISSPACE c = true) ws1 ->
  Forall (fun c => Py_ISSPACE c = true) ws2 ->
  match lstrip (ws1 ++ s ++ ws2) with [] => [] | s1 => rstrip s1 end
  = match lstrip s with [] => [] | s1 => rstrip s1 end.
Proof.
  intros H1 H2. rewrite (lstrip_blanks ws1 _ H1), (lstrip_app_blanks s ws2 H2).
  destruct (lstrip s) as [|c r]; [reflexivity|].
  cbn [app rstrip]. now rewrite (rstrip1_app_blanks r ws2 H2).
Qed.

Lemma float_of_str_strip {db : UnicodeDB} (s : str) :
  float_of_str s
  = match match lstrip (_PyUnicode_TransformDecimalAndSpaceToASCII s) with
          | [] => []
          | s1 => rstrip s1
          end with
    | [] => Raise ValueError
    | s2 =>
        match _Py_string_to_number_with_underscores s2 with
        | None => Raise ValueError
        | Some s3 => float_from_string_inner s3
        end
    end.
Proof.
  unfold float_of_str.
  destruct (lstrip (_PyUnicode_TransformDecimalAndSpaceToASCII s)) as [|c r]; reflexivity.
Qed.

Lemma float_of_str_blanks {db : UnicodeDB} (ws1 s ws2 : str) :
  Forall (fun c => Py_ISSPACE c = true) ws1 ->
  Forall (fun c => Py_ISSPACE c = true) ws2 ->
  float_of_str (ws1 ++ s ++ ws2) = float_of_str s.
Proof.
  intros H1 H2. rewrite !float_of_str_strip.
  unfold _PyUnicode_TransformDecimalAndSpaceToASCII.
  rewrite !forallb_app, (blanks_ascii ws1 H1), (blanks_ascii ws2 H2), andb_true_r.
  cbn [andb]. destruct (forallb (fun c => c <? 128) s).
  - now rewrite (strip_blanks ws1 s ws2 H1 H2).
  - rewrite (transform_chars_blanks ws1 _ H1).
    destruct (transform_chars_app_blanks s ws2 H2) as [-> | ->].
    + now rewrite (strip_blanks ws1 _ ws2 H1 H2).
    + rewrite <- (app_nil_r (transform_chars s)) at 1.
      now rewrite (strip_blanks ws1 _ [] H1 (Forall_nil _)).
Qed.

(** X17.  Blanks and tabs around the reading are ignored: the line
    [key; 10.0 ] gives the record, or the error, of the line [key;10.0]. *)
Theorem blanks_around_the_reading_are_ignored {db : UnicodeDB}
    (key ws1 value ws2 term : str) :
  plain key -> ~ In delimiter key -> plain value -> ~ In delimiter value ->
  Forall (fun c => In c [9; 11; 12; 32]) ws1 ->
  Forall (fun c => In c [9; 11; 12; 32]) ws2 ->
  terminator term ->
  Z.of_nat (List.length (key ++ [delimiter] ++ ws1 ++ value ++ ws2)) <= field_limit ->
  parse_line ((key ++ [delimiter] ++ ws1 ++ value ++ ws2) ++ term)
  = parse_line ((key ++ [delimiter] ++ value) ++ term).
Proof.
  intros Hk Hnk Hv Hnv H1 H2 Ht Hlen.
  assert (Hblank : forall ws, Forall (fun c => In c [9; 11; 12; 32]) ws ->
            plain ws /\ ~ In delimiter ws /\ Forall (fun c => Py_ISSPACE c = true) ws).
  { intros ws Hws. rewrite Forall_forall in Hws. repeat split.
    - apply Forall_forall. intros c Hc. specialize (Hws c Hc). simpl in Hws.
      split; [unfold quotechar; lia|].
      unfold is_newline; destruct Hws as [<-|[<-|[<-|[<-|[]]]]]; reflexivity.
    - intro Hc. specialize (Hws _ Hc). simpl in Hws. unfold delimiter in Hws. lia.
    - apply Forall_forall. intros c Hc. specialize (Hws c Hc). simpl in Hws.
      destruct Hws as [<-|[<-|[<-|[<-|[]]]]]; reflexivity. }
  destruct (Hblank ws1 H1) as (Hp1 & Hd1 & Hs1).
  destruct (Hblank ws2 H2) as (Hp2 & Hd2 & Hs2).
  assert (Hpv : plain (ws1 ++ value ++ ws2)) by (repeat apply plain_app; assumption).
  assert (Hdv : ~ In delimiter (ws1 ++ value ++ ws2)).
  { intro Hin. apply in_app_or in Hin as [Hin|Hin]; [tauto|].
    apply in_app_or in Hin as [Hin|Hin]; tauto. }
  assert (Hlen' : Z.of_nat (List.length (key ++ [delimiter] ++ value)) <= field_limit).
  { rewrite !length_app in *. simpl List.length in *. lia. }
  pose proof (parse_line_key_value key (ws1 ++ value ++ ws2) [] term
                Hk Hpv (Forall_nil _) Hnk Hdv (or_introl eq_refl) Ht) as Hl.
  pose proof (parse_line_key_value key value [] term
                Hk Hv (Forall_nil _) Hnk Hnv (or_introl eq_refl) Ht) as Hr.
  rewrite !app_nil_r in Hl, Hr.
  rewrite (Hl Hlen), (Hr Hlen').
  now rewrite (float_of_str_blanks ws1 value ws2 Hs1 Hs2).
Qed.

Lemma blanks_around_the_reading_are_ignored_witness :
  @parse_line ascii_db ((lit "A" ++ [delimiter] ++ [32; 9] ++ lit "10.0" ++ [32]) ++ LF)
  = @parse_line ascii_db ((lit "A" ++ [delimiter] ++ lit "10.0") ++ LF).
Proof.
  apply (@blanks_around_the_reading_are_ignored ascii_db).
  - solve_plain.
  - solve_no_delim.
  - solve_plain.
  - solve_no_delim.
  - repeat constructor; simpl; tauto.
  - repeat constructor; simpl; tauto.
  - repeat constructor.
  - unfold field_limit. simpl. lia.
Defined.

(** ** The field limit of the reader *)

Lemma split_fields_no_delim (s f : str) :
  ~ In delimiter s -> split_fields [] f s = [f ++ s].
Proof.
  revert f. induction s as [|c s IH]; intros f Hn; simpl.
  - now rewrite app_nil_r.
  - destruct (Z.eqb_spec c delimiter) as [->|_]; [exfalso; apply Hn; now left|].
    rewrite IH by (intro; apply Hn; now right). now rewrite <- app_assoc.
Qed.

Lemma feed_chars_one_field (s : str) :
  plain s -> ~ In delimiter s -> s <> [] ->
  Z.of_nat (List.length s) <= field_limit ->
  feed_chars parse_reset s = Ok {| fields := []; state := IN_FIELD; field := s |}.
Proof.
  intros Hplain Hn Hne Hlen.
  destruct s as [|c s]; [contradiction|].
  inversion Hplain as [|? ? [Hq Hnl] Hplain']; subst.
  assert (Hd : (c =? delimiter) = false).
  { apply Z.eqb_neq. intros ->. apply Hn. now left. }
  apply Z.eqb_neq in Hq.
  cbn [feed_chars]. unfold parse_process_char at 1. cbn [state parse_reset].
  rewrite Hnl. unfold start_field. rewrite Hnl, Hq, Hd.
  rewrite parse_add_char_ok by (unfold field_limit; simpl; lia).
  cbn [map_result].
  change (set_state IN_FIELD _) with {| fields := []; state := IN_FIELD; field := [c] |}.
  destruct (feed_chars_plain s {| fields := []; state := IN_FIELD; field := [c] |} Hplain')
    as (self' & Hfeed & Hun & Hsplit).
  - now left.
  - simpl List.length in *. lia.
  - rewrite Hfeed. cbn [fields field] in Hsplit.
    rewrite split_fields_no_delim in Hsplit by (intro; apply Hn; now right).
    destruct self' as [fs st f]. cbn [fields field state] in *.
    destruct fs as [|f0 fs].
    + injection Hsplit as ->. destruct Hun as [Hst|[_ Hf]]; cbn in *.
      * now subst st.
      * discriminate Hf.
    + destruct fs; discriminate Hsplit.
Qed.

(** X18.  The reader accepts fields of 131072 characters at most: a line whose
    station is longer makes the function stop with [csv.Error], whatever
    follows the station on the line. *)
Theorem oversized_station_raises_csv_Error {db : UnicodeDB} (key rest : str) :
  plain key -> ~ In delimiter key ->
  field_limit < Z.of_nat (List.length key) ->
  parse_line (key ++ rest) = Raise csv_Error /\
  closed_line (key ++ rest) /\
  forall more, processar_temperaturas ((key ++ rest) :: more) = Raise csv_Error.
Proof.
  intros Hplain Hn Hlen.
  set (n := Z.to_nat field_limit).
  assert (Hn' : (n < List.length key)%nat) by (unfold n, field_limit in *; lia).
  assert (Hn0 : Z.of_nat n = field_limit) by (unfold n, field_limit; lia).
  clearbody n.
  assert (Hsplit : exists pre c post, key = pre ++ c :: post /\ List.length pre = n).
  { exists (firstn n key). destruct (skipn n key) as [|c post] eqn:E.
    - apply (f_equal (@List.length _)) in E. rewrite length_skipn in E. simpl in E. lia.
    - exists c, post. split; [|rewrite length_firstn; lia].
      rewrite <- E. symmetry. apply firstn_skipn. }
  destruct Hsplit as (pre & c & post & -> & Hpre).
  assert (Hfeed : feed_line parse_reset ((pre ++ c :: post) ++ rest) = Raise csv_Error).
  { apply Forall_app in Hplain as [Hp1 Hp2].
    inversion Hp2 as [|? ? [Hq Hnl] _]; subst.
    unfold feed_line. rewrite <- app_assoc, feed_chars_app.
    rewrite (feed_chars_one_field pre).
    - cbn [app feed_chars]. unfold parse_process_char. cbn [state].
      rewrite Hnl.
      destruct (Z.eqb_spec c delimiter) as [->|_].
      + exfalso. apply Hn. apply in_or_app. right. now left.
      + unfold parse_add_char. cbn [field].
        destruct (Z.leb_spec field_limit (Z.of_nat (List.length pre))) as [_|Hlt];
          [reflexivity|].
        unfold field_limit in *. lia.
    - exact Hp1.
    - intro Hin. apply Hn. apply in_or_app. now left.
    - intros E. rewrite E in *. unfold field_limit in *. simpl in *. lia.
    - unfold field_limit in *. lia. }
  split; [|split].
  - unfold parse_line, reader. cbn [Reader_iternext]. now rewrite Hfeed.
  - intros self Hself. rewrite Hfeed in Hself. discriminate.
  - intro more. unfold processar_temperaturas, load, reader. cbn [Reader_iternext].
    now rewrite Hfeed.
Qed.

Lemma oversized_station_raises_csv_Error_witness :
  @parse_line ascii_db (repeat 65 (Z.to_nat 131073) ++ lit ";1.0" ++ LF) = Raise csv_Error /\
  closed_line (repeat 65 (Z.to_nat 131073) ++ lit ";1.0" ++ LF) /\
  forall more,
    @processar_temperaturas ascii_db
      ((repeat 65 (Z.to_nat 131073) ++ lit ";1.0" ++ LF) :: more) = Raise csv_Error.
Proof.
  apply (@oversized_station_raises_csv_Error ascii_db).
  - apply Forall_forall. intros c Hc. apply repeat_spec in Hc. subst c.
    split; [discriminate|reflexivity].
  - intro Hc. apply repeat_spec in Hc. discriminate Hc.
  - rewrite repeat_length. unfold field_limit. lia.
Defined.
